(** * PFERD.transform: path-rewrite rules, their combinators and their
    application to a batch of Transformables.

    A shallow embedding of [PFERD/transform.py] and of the parts of the Python
    standard library it calls ([pathlib.PurePath] in its POSIX flavour,
    [fnmatch.fnmatchcase], [re.fullmatch] and [str.format]), followed by the
    properties of the rules.

    Python values are modelled as follows.
    - [str] is [string]: the bytes of the text in UTF-8.  The slash and the
      dot of a path are one byte each and no byte of another character
      equals them, so that paths are cut and joined on bytes; where the code
      looks at single characters ([fnmatch]) the bytes are decoded to code
      points first.
    - A call that may raise is a computation in [M S A]: it maps a state to
      an [outcome] (a returned value or a raised exception) and a new state.
    - A [Transform] is any Python callable from a path to an optional path: it
      may return a path, return [None], raise, or change the state of the
      world it closes over.
    - Transformables are heap objects: a batch is a list of references into a
      store, so the same object may occur twice in a batch and an assignment
      to [transformable.path] is visible through every reference. *)

From Stdlib Require Import String Ascii List Bool Arith NArith DecimalString Lia.
From stdpp Require Import base tactics option list functions strings.


(** ** Python computations *)

Module Py.

(** The exceptions that the modelled code can raise. [Exception] stands for
    any exception raised by a user-supplied callable.

    [NotModelled] is no Python exception.  The executable models of [re] and
    of [str.format] below cover a fragment of what these libraries accept;
    on an input outside its fragment a model answers [NotModelled] and says
    nothing about what CPython does there. *)
Inductive exn : Type :=
| ValueError (msg : string)
| IndexError (msg : string)
| KeyError (key : string)
| re_error (msg : string)
| Exception (msg : string)
| NotModelled (what : string).

Inductive outcome (A : Type) : Type :=
| Returns (a : A)
| Raises (e : exn).

Arguments Returns {A} a.
Arguments Raises {A} e.

Definition M (S A : Type) : Type := S -> outcome A * S.

Definition ret {S A} (a : A) : M S A := fun s => (Returns a, s).

Definition bind {S A B} (c : M S A) (k : A -> M S B) : M S B :=
  fun s =>
    match c s with
    | (Returns a, s') => k a s'
    | (Raises e, s') => (Raises e, s')
    end.

(** A computation that cannot touch the state, lifted. *)
Definition pure {S A} (o : outcome A) : M S A := fun s => (o, s).

End Py.

Import Py.

Declare Scope py_scope.
Delimit Scope py_scope with py.
Notation "x <- c ;; k" := (bind c (fun x => k))
  (at level 100, c at next level, right associativity) : py_scope.
Local Open Scope py_scope.

(** ** Strings *)

Module Str.

Definition chars (s : string) : list ascii := list_ascii_of_string s.
Definition of_chars (l : list ascii) : string := string_of_list_ascii l.

Definition slash : ascii := "/"%char.

(** [s.split(sep)] for a one-character separator: the pieces between the
    separators, empty pieces included; never the empty list. *)
Fixpoint split_chars (sep : ascii) (l : list ascii) : list (list ascii) :=
  match l with
  | [] => [[]]
  | c :: l' =>
      if Ascii.eqb c sep then [] :: split_chars sep l'
      else match split_chars sep l' with
           | [] => [[c]]
           | w :: ws => (c :: w) :: ws
           end
  end.

Definition split (sep : ascii) (s : string) : list string :=
  map of_chars (split_chars sep (chars s)).

(** [sep.join(parts)] *)
Fixpoint join (sep : string) (parts : list string) : string :=
  match parts with
  | [] => ""
  | [p] => p
  | p :: ps => p +:+ sep +:+ join sep ps
  end.

(** [s.lstrip(c)] *)
Fixpoint lstrip (c : ascii) (s : string) : string :=
  match s with
  | String a s' => if Ascii.eqb a c then lstrip c s' else s
  | EmptyString => s
  end.

Definition last_char (s : string) : option ascii := last (chars s).

End Str.

(** ** Code points

    [decode] reads the code points off the UTF-8 bytes of a text.  It is
    total: a byte that starts no well-formed sequence is kept as a code point
    of its own, the one that the error handler [surrogateescape] gives it. *)

Module Utf8.

Definition byte (c : ascii) : N := N_of_ascii c.

Definition is_ascii (c : ascii) : bool := (byte c <? 128)%N.

(** A continuation byte [10xxxxxx], and the six bits it carries. *)
Definition is_cont (c : ascii) : bool :=
  (128 <=? byte c)%N && (byte c <? 192)%N.

Definition bits (c : ascii) : N := (byte c - 128)%N.

Definition escaped (c : ascii) : N := (56320 + byte c)%N.

(** The code point of a sequence of two, three and four bytes. *)
Definition two (c0 c1 : ascii) : N := ((byte c0 - 192) * 64 + bits c1)%N.

Definition three (c0 c1 c2 : ascii) : N :=
  (((byte c0 - 224) * 64 + bits c1) * 64 + bits c2)%N.

Definition four (c0 c1 c2 c3 : ascii) : N :=
  ((((byte c0 - 240) * 64 + bits c1) * 64 + bits c2) * 64 + bits c3)%N.

(** The sequence is well formed: the lead byte announces its length, the
    other bytes are continuation bytes, the code point needs that many
    bytes, is no surrogate and is at most U+10FFFF. *)
Definition two_ok (c0 c1 : ascii) : bool :=
  (192 <=? byte c0)%N && (byte c0 <? 224)%N && is_cont c1 &&
  (128 <=? two c0 c1)%N.

Definition three_ok (c0 c1 c2 : ascii) : bool :=
  (224 <=? byte c0)%N && (byte c0 <? 240)%N && is_cont c1 && is_cont c2 &&
  (2048 <=? three c0 c1 c2)%N &&
  negb ((55296 <=? three c0 c1 c2)%N && (three c0 c1 c2 <=? 57343)%N).

Definition four_ok (c0 c1 c2 c3 : ascii) : bool :=
  (240 <=? byte c0)%N && (byte c0 <? 248)%N &&
  is_cont c1 && is_cont c2 && is_cont c3 &&
  (65536 <=? four c0 c1 c2 c3)%N && (four c0 c1 c2 c3 <=? 1114111)%N.

Fixpoint decode (l : list ascii) : list N :=
  match l with
  | [] => []
  | c0 :: l1 =>
      if is_ascii c0 then byte c0 :: decode l1
      else
        match l1 with
        | c1 :: l2 =>
            if two_ok c0 c1 then two c0 c1 :: decode l2
            else
              match l2 with
              | c2 :: l3 =>
                  if three_ok c0 c1 c2 then three c0 c1 c2 :: decode l3
                  else
                    match l3 with
                    | c3 :: l4 =>
                        if four_ok c0 c1 c2 c3
                        then four c0 c1 c2 c3 :: decode l4
                        else escaped c0 :: decode l1
                    | [] => escaped c0 :: decode l1
                    end
              | [] => escaped c0 :: decode l1
              end
        | [] => escaped c0 :: decode l1
        end
  end.

(** The code points of a text. *)
Definition codepoints (s : string) : list N := decode (Str.chars s).

End Utf8.

(** ** fnmatch.fnmatchcase *)

Module Fnmatch.

Inductive item : Type :=
| Single (c : N)
| Range (lo hi : N).

(** What [fnmatch.translate] makes of a pattern: [*], [?], a character class
    [[seq]] or [[!seq]], and literal characters. *)
Inductive token : Type :=
| Star
| Any
| Class (negated : bool) (items : list item)
| Lit (c : N).

(** The code point [n] is the character [c]. *)
Definition is_char (n : N) (c : ascii) : bool := (n =? Utf8.byte c)%N.

Definition in_item (c : N) (it : item) : bool :=
  match it with
  | Single a => (a =? c)%N
  | Range lo hi => (lo <=? c)%N && (c <=? hi)%N
  end.

(** The items of a class: a hyphen between two characters makes a range (an
    empty one when the bounds are out of order), any other character stands
    for itself. *)
Fixpoint class_items (stuff : list N) : list item :=
  match stuff with
  | [] => []
  | lo :: rest =>
      match rest with
      | dash :: hi :: rest' =>
          if is_char dash "-" then Range lo hi :: class_items rest'
          else Single lo :: class_items rest
      | _ => Single lo :: class_items rest
      end
  end.

(** The text up to the next closing bracket, and what follows the bracket. *)
Fixpoint scan_class (l : list N) : option (list N * list N) :=
  match l with
  | [] => None
  | c :: l' =>
      if is_char c "]" then Some ([], l')
      else match scan_class l' with
           | Some (stuff, rest) => Some (c :: stuff, rest)
           | None => None
           end
  end.

(** After an opening bracket: an optional [!], then the class, in which a
    closing bracket that comes first is an ordinary character.  [None] when
    the bracket is never closed. *)
Definition close_class (l : list N) : option (bool * list N * list N) :=
  let '(negated, l1) :=
    match l with
    | c :: l' => if is_char c "!" then (true, l') else (false, l)
    | [] => (false, l)
    end in
  match l1 with
  | c :: l2 =>
      if is_char c "]" then
        match scan_class l2 with
        | Some (stuff, rest) => Some (negated, c :: stuff, rest)
        | None => None
        end
      else
        match scan_class l1 with
        | Some (stuff, rest) => Some (negated, stuff, rest)
        | None => None
        end
  | [] => None
  end.

Fixpoint tokens (fuel : nat) (pat : list N) : list token :=
  match fuel with
  | 0 => []
  | S fuel' =>
      match pat with
      | [] => []
      | c :: rest =>
          if is_char c "*" then
            match tokens fuel' rest with
            | Star :: ts => Star :: ts
            | ts => Star :: ts
            end
          else if is_char c "?" then Any :: tokens fuel' rest
          else if is_char c "[" then
            match close_class rest with
            | Some (negated, stuff, rest') =>
                Class negated (class_items stuff) :: tokens fuel' rest'
            | None => Lit c :: tokens fuel' rest
            end
          else Lit c :: tokens fuel' rest
      end
  end.

(** The tokens against the code points of a name: [*] takes any number of
    them, [?] and a class take one. *)
Fixpoint tokmatch (ts : list token) (s : list N) : bool :=
  match ts with
  | [] => match s with [] => true | _ => false end
  | Star :: ts' =>
      (fix star (s : list N) : bool :=
         tokmatch ts' s || match s with [] => false | _ :: s' => star s' end) s
  | Any :: ts' =>
      match s with _ :: s' => tokmatch ts' s' | [] => false end
  | Class negated items :: ts' =>
      match s with
      | c :: s' => xorb negated (existsb (in_item c) items) && tokmatch ts' s'
      | [] => false
      end
  | Lit a :: ts' =>
      match s with c :: s' => (a =? c)%N && tokmatch ts' s' | [] => false end
  end.

(** The tokens of a pattern. *)
Definition translate (pat : string) : list token :=
  let l := Utf8.codepoints pat in tokens (S (length l)) l.

(** [fnmatch.fnmatchcase(name, pat)] *)
Definition fnmatchcase (name pat : string) : bool :=
  tokmatch (translate pat) (Utf8.codepoints name).

End Fnmatch.

(** ** pathlib.PurePath, POSIX flavour *)

(** A path is its root (the empty string, one slash or two slashes) and the
    names below the root.  CPython's [_parts] is the root, when there is one,
    followed by the names. *)
Record PurePath : Type := mkPath { root : string; names : list string }.

Module Path.

Definition parts (p : PurePath) : list string :=
  if String.eqb (root p) "" then names p else root p :: names p.

(** [_PosixFlavour.splitroot] *)
Definition splitroot (part : string) : string * string :=
  match part with
  | String c _ =>
      if Ascii.eqb c Str.slash then
        let stripped_part := Str.lstrip Str.slash part in
        if String.length part - String.length stripped_part =? 2
        then ("//", stripped_part)
        else ("/", stripped_part)
      else ("", part)
  | EmptyString => ("", part)
  end.

Definition is_name (x : string) : bool :=
  negb (String.eqb x "") && negb (String.eqb x ".").

(** [_Flavour.parse_parts] on a single argument, hence [PurePath(s)]. *)
Definition parse (s : string) : PurePath :=
  let '(rt, rel) := splitroot s in
  mkPath rt (filter (fun x => is_name x = true) (Str.split Str.slash rel)).

(** [str(path)] *)
Definition str (p : PurePath) : string :=
  let s := root p +:+ Str.join "/" (names p) in
  if String.eqb s "" then "." else s.

(** [path == other]: CPython compares [_parts], that is the root and the
    names. *)
Definition eqb (p q : PurePath) : bool :=
  bool_decide (root p = root q /\ names p = names q).

(** [path.parents]: the path without its last name, without its last two
    names, and so on down to the root (or to the empty relative path). *)
Definition parents (p : PurePath) : list PurePath :=
  map (fun idx => mkPath (root p) (take (length (names p) - idx - 1) (names p)))
      (seq 0 (length (names p))).

(** [x in path.parents] *)
Definition is_parent (x p : PurePath) : bool :=
  existsb (fun a => eqb a x) (parents p).

(** [path.relative_to(other)] *)
Definition relative_to (p other : PurePath) : outcome PurePath :=
  let abs_parts :=
    if String.eqb (root p) "" then names p else "" :: root p :: names p in
  let to_abs_parts :=
    if String.eqb (root other) "" then names other
    else "" :: root other :: names other in
  let n := length to_abs_parts in
  if (if n =? 0 then negb (String.eqb (root p) "")
      else negb (bool_decide (take n abs_parts = to_abs_parts)))
  then Raises (ValueError "is not in the subpath of")
  else Returns (mkPath (if n =? 1 then root p else "") (drop n abs_parts)).

(** [path / other] *)
Definition joinpath (p other : PurePath) : PurePath :=
  if String.eqb (root other) "" then mkPath (root p) (names p ++ names other)
  else other.

(** [path.name] *)
Definition name (p : PurePath) : string := List.last (names p) "".

(** [path.with_name(name)] *)
Definition with_name (p : PurePath) (new_name : string) : outcome PurePath :=
  if String.eqb (name p) "" then Raises (ValueError "has an empty name")
  else
    let q := parse new_name in
    if String.eqb new_name ""
       || bool_decide (Str.last_char new_name = Some Str.slash)
       || negb (String.eqb (root q) "")
       || negb (length (parts q) =? 1)
    then Raises (ValueError "Invalid name")
    else Returns (mkPath (root p) (removelast (names p) ++ [new_name])).

(** [path.match(path_pattern)] *)
Definition match_ (p : PurePath) (path_pattern : string) : outcome bool :=
  let pat := parse path_pattern in
  let pat_parts := parts pat in
  let has_root := negb (String.eqb (root pat) "") in
  match pat_parts with
  | [] => Raises (ValueError "empty pattern")
  | _ :: pat_tail =>
      if has_root && negb (String.eqb (root pat) (root p)) then Returns false
      else if has_root then
        if negb (length pat_parts =? length (parts p)) then Returns false
        else Returns (forallb (fun '(part, pat) => Fnmatch.fnmatchcase part pat)
                              (zip (rev (parts p)) (rev pat_tail)))
      else if length (parts p) <? length pat_parts then Returns false
      else Returns (forallb (fun '(part, pat) => Fnmatch.fnmatchcase part pat)
                            (zip (rev (parts p)) (rev pat_parts)))
  end.

End Path.

(** ** re: compiling a pattern and [Pattern.fullmatch], a fragment

    An executable model of [re] for patterns and subjects in ASCII.  The
    syntax that is modelled: literal characters, [.], the classes [\d],
    [\w], [\s] and their complements, the escapes [\n] and [\t], an escaped
    punctuation character, capturing groups, alternation and the greedy
    quantifiers [*], [+] and [?].  In this fragment a malformed pattern is
    refused with the error of [re]; a pattern with anything else in it (a
    bracketed class, an anchor, braces, a group extension, a lazy or
    possessive quantifier, another escape, a character outside ASCII) is
    answered with [NotModelled], and so is a subject outside ASCII. *)

Module Re.

Inductive item : Type :=
| Single (c : ascii)
| Range (lo hi : ascii).

Definition in_item (c : ascii) (it : item) : bool :=
  match it with
  | Single a => Ascii.eqb a c
  | Range lo hi =>
      (nat_of_ascii lo <=? nat_of_ascii c) && (nat_of_ascii c <=? nat_of_ascii hi)
  end.

Definition is_ascii (s : string) : bool := forallb Utf8.is_ascii (Str.chars s).

Inductive regex : Type :=
| Eps
| Chr (c : ascii)
| Dot
| Set_ (negated : bool) (items : list item)
| Cat (r1 r2 : regex)
| Alt (r1 r2 : regex)
| Rep (r : regex)
| Group (k : nat) (r : regex).

(** A compiled pattern: the expression and the number of its groups. *)
Record Pattern : Type := mkPattern { expr : regex; ngroups : nat }.

(** *** Compiling *)

(** The ASCII characters of the classes [\d], [\w] and [\s] of a [str]
    pattern. *)
Definition digit_items : list item := [Range "0" "9"].
Definition word_items : list item :=
  [Range "a" "z"; Range "A" "Z"; Range "0" "9"; Single "_"].
Definition space_items : list item :=
  [Single " "; Range "009" "013"; Range "028" "031"].

Definition is_special (c : ascii) : bool :=
  existsb (Ascii.eqb c)
    ["."; "^"; "$"; "*"; "+"; "?"; "{"; "["; "\"; "|"; "("; ")"]%char.

Definition is_alnum (c : ascii) : bool :=
  existsb (in_item c) [Range "a" "z"; Range "A" "Z"; Range "0" "9"].

(** The atom that an escape sequence denotes, given the escaped character.
    A letter or a digit other than the six classes, [n] and [t] is either
    another escape of [re] or a bad escape. *)
Definition escape (c : ascii) : outcome regex :=
  if Ascii.eqb c "d" then Returns (Set_ false digit_items)
  else if Ascii.eqb c "D" then Returns (Set_ true digit_items)
  else if Ascii.eqb c "w" then Returns (Set_ false word_items)
  else if Ascii.eqb c "W" then Returns (Set_ true word_items)
  else if Ascii.eqb c "s" then Returns (Set_ false space_items)
  else if Ascii.eqb c "S" then Returns (Set_ true space_items)
  else if Ascii.eqb c "n" then Returns (Chr "010")
  else if Ascii.eqb c "t" then Returns (Chr "009")
  else if is_alnum c then Raises (NotModelled "escape")
  else Returns (Chr c).

Definition is_quantifier (c : ascii) : bool :=
  Ascii.eqb c "*" || Ascii.eqb c "+" || Ascii.eqb c "?".

(** An atom followed by its quantifier, if any.  A star after the
    quantifier is refused; a question mark or a plus sign after it would
    make the quantifier lazy or possessive. *)
Definition quantified (atom : regex) (l : list ascii)
    : outcome (regex * list ascii) :=
  match l with
  | c :: l' =>
      if is_quantifier c then
        match l' with
        | c' :: _ =>
            if Ascii.eqb c' "*" then Raises (re_error "multiple repeat")
            else if is_quantifier c' then Raises (NotModelled "quantifier")
            else
              Returns (if Ascii.eqb c "*" then Rep atom
                       else if Ascii.eqb c "+" then Cat atom (Rep atom)
                       else Alt atom Eps, l')
        | [] =>
            Returns (if Ascii.eqb c "*" then Rep atom
                     else if Ascii.eqb c "+" then Cat atom (Rep atom)
                     else Alt atom Eps, l')
        end
      else Returns (atom, l)
  | [] => Returns (atom, l)
  end.

Fixpoint cat_all (rs : list regex) : regex :=
  match rs with
  | [] => Eps
  | [r] => r
  | r :: rs' => Cat r (cat_all rs')
  end.

Fixpoint alt_all (rs : list regex) : regex :=
  match rs with
  | [] => Eps
  | [r] => r
  | r :: rs' => Alt r (alt_all rs')
  end.

(** Parsing an alternation up to the end of the pattern or to a closing
    parenthesis.  [n] is the number of groups opened so far, [branches] the
    alternatives already complete and [items] the items of the alternative
    being read.  The result is the expression, the rest of the pattern and
    the number of groups.  The fuel is the length of the pattern and one
    more, and every call reads at least one character. *)
Fixpoint parse (fuel : nat) (l : list ascii) (n : nat)
    (branches items : list regex) : outcome (regex * list ascii * nat) :=
  match fuel with
  | 0 => Raises (NotModelled "fuel")
  | S fuel' =>
      match l with
      | [] => Returns (alt_all (branches ++ [cat_all items]), l, n)
      | c :: l' =>
          if Ascii.eqb c ")" then
            Returns (alt_all (branches ++ [cat_all items]), l, n)
          else if Ascii.eqb c "|" then
            parse fuel' l' n (branches ++ [cat_all items]) []
          else if is_quantifier c then Raises (re_error "nothing to repeat")
          else if Ascii.eqb c "(" then
            match l' with
            | "?"%char :: _ => Raises (NotModelled "group extension")
            | _ =>
                match parse fuel' l' (S n) [] [] with
                | Returns (r, rest, n') =>
                    match rest with
                    | close :: rest' =>
                        match quantified (Group (S n) r) rest' with
                        | Returns (q, rest'') =>
                            parse fuel' rest'' n' branches (items ++ [q])
                        | Raises e => Raises e
                        end
                    | [] => Raises (re_error "missing ), unterminated subpattern")
                    end
                | Raises e => Raises e
                end
            end
          else if Ascii.eqb c "\" then
            match l' with
            | e :: l'' =>
                match escape e with
                | Returns atom =>
                    match quantified atom l'' with
                    | Returns (q, rest) =>
                        parse fuel' rest n branches (items ++ [q])
                    | Raises err => Raises err
                    end
                | Raises err => Raises err
                end
            | [] => Raises (re_error "bad escape (end of pattern)")
            end
          else if Ascii.eqb c "." then
            match quantified Dot l' with
            | Returns (q, rest) => parse fuel' rest n branches (items ++ [q])
            | Raises err => Raises err
            end
          else if is_special c then Raises (NotModelled "syntax")
          else
            match quantified (Chr c) l' with
            | Returns (q, rest) => parse fuel' rest n branches (items ++ [q])
            | Raises err => Raises err
            end
      end
  end.

(** [re.compile(pattern)] *)
Definition compile (pattern : string) : outcome Pattern :=
  if negb (is_ascii pattern) then Raises (NotModelled "pattern outside ASCII")
  else
    match parse (S (String.length pattern)) (Str.chars pattern) 0 [] [] with
    | Returns (r, [], n) => Returns (mkPattern r n)
    | Returns (_, _ :: _, _) => Raises (re_error "unbalanced parenthesis")
    | Raises e => Raises e
    end.

(** *** Matching *)

(** The span of each group, [None] for a group that did not take part in the
    match; group [k] is at index [k - 1]. *)
Definition spans : Type := list (option (nat * nat)).

Definition set_span (k : nat) (sp : nat * nat) (cs : spans) : spans :=
  <[k - 1 := Some sp]> cs.

(** A greedy repetition of [body] from position [i]: one more iteration is
    tried first, then the continuation [k].  An iteration that consumes
    nothing ends the repetition.  The fuel is never used up when it exceeds
    the number of characters left, since every further iteration starts at a
    later position. *)
Fixpoint repeat_loop
    (body : nat -> spans -> (nat -> spans -> option (nat * spans)) ->
            option (nat * spans))
    (k : nat -> spans -> option (nat * spans))
    (fuel : nat) (i : nat) (cs : spans) : option (nat * spans) :=
  match fuel with
  | 0 => k i cs
  | S fuel' =>
      match body i cs
              (fun j cs' =>
                 if i <? j then repeat_loop body k fuel' j cs' else k j cs')
      with
      | Some x => Some x
      | None => k i cs
      end
  end.

(** The backtracking matcher, in continuation-passing style: [run s r i cs k]
    matches [r] at position [i] of [s] and hands the position reached and the
    spans to [k]; when [k] fails the next way of matching [r] is tried.
    Alternatives are tried from left to right and a repetition takes as many
    iterations as it can. *)
Fixpoint run (s : list ascii) (r : regex) (i : nat) (cs : spans)
    (k : nat -> spans -> option (nat * spans)) : option (nat * spans) :=
  match r with
  | Eps => k i cs
  | Chr c =>
      match s !! i with
      | Some a => if Ascii.eqb a c then k (S i) cs else None
      | None => None
      end
  | Dot =>
      match s !! i with
      | Some a => if Ascii.eqb a "010" then None else k (S i) cs
      | None => None
      end
  | Set_ negated items =>
      match s !! i with
      | Some a =>
          if xorb negated (existsb (in_item a) items) then k (S i) cs
          else None
      | None => None
      end
  | Cat r1 r2 => run s r1 i cs (fun j cs' => run s r2 j cs' k)
  | Alt r1 r2 =>
      match run s r1 i cs k with
      | Some x => Some x
      | None => run s r2 i cs k
      end
  | Group n r' => run s r' i cs (fun j cs' => k j (set_span n (i, j) cs'))
  | Rep r' => repeat_loop (run s r') k (S (length s - i)) i cs
  end.

(** A match object: the subject string, the end of the match (its start is
    0) and the spans of the groups. *)
Record Match : Type :=
  mkMatch { subject : string; end_pos : nat; group_spans : spans }.

(** [string[a:b]] *)
Definition slice (s : string) (a b : nat) : string := substring a (b - a) s.

(** [match.group(0)] *)
Definition group0 (m : Match) : string := slice (subject m) 0 (end_pos m).

(** [match.groups()]: [None] for a group that did not take part. *)
Definition groups (m : Match) : list (option string) :=
  map (fun sp : option (nat * nat) =>
         match sp with
         | Some (a, b) => Some (slice (subject m) a b)
         | None => None
         end) (group_spans m).

(** [pattern.fullmatch(string)] *)
Definition fullmatch (pat : Pattern) (s : string) : outcome (option Match) :=
  if negb (is_ascii s) then Raises (NotModelled "subject outside ASCII")
  else
    let l := Str.chars s in
    match run l (expr pat) 0 (replicate (ngroups pat) None)
            (fun j cs => if j =? length l then Some (j, cs) else None) with
    | Some (j, cs) => Returns (Some (mkMatch s j cs))
    | None => Returns None
    end.

End Re.

(** ** str.format with positional arguments, a fragment

    An executable model of [template.format] applied to positional arguments
    that are strings or [None].  What is modelled: literal text, the escapes
    [{{] and [}}], and the replacement fields [{}] (automatic numbering),
    [{k}] with [k] a decimal index, and [{name}].  A field with a conversion,
    a format specification, an attribute, an item access or a nested field,
    or with a character outside ASCII in it, is answered with
    [NotModelled]. *)

Module Format.

(** How the fields seen so far were numbered. *)
Inductive numbering : Type :=
| Init
| Auto (next : nat)
| Manual.

Definition is_digit (c : ascii) : bool :=
  (nat_of_ascii "0" <=? nat_of_ascii c) && (nat_of_ascii c <=? nat_of_ascii "9").

(** [int(digits)] *)
Definition int_of (digits : list ascii) : N :=
  fold_left (fun n c => (10 * n + (Utf8.byte c - Utf8.byte "0"))%N) digits 0%N.

(** The largest index that a field can name (a 64-bit build). *)
Definition PY_SSIZE_T_MAX : N := 9223372036854775807%N.

(** The built-in [format] of a group with an empty specification: a string
    is itself, [None] is the text None. *)
Definition render (value : option string) : string :=
  match value with
  | Some s => s
  | None => "None"
  end.

(** [args[idx]] *)
Definition get_item (args : list (option string)) (idx : N)
    : outcome (option string) :=
  match
    (if (idx <? N.of_nat (length args))%N then args !! N.to_nat idx else None)
  with
  | Some v => Returns v
  | None =>
      Raises (IndexError ("Replacement index "
                          +:+ NilZero.string_of_uint (N.to_uint idx)
                          +:+ " out of range for positional args tuple"))
  end.

(** The text of a replacement field up to its closing brace, and what
    follows the brace. *)
Fixpoint scan_field (l : list ascii) : option (list ascii * list ascii) :=
  match l with
  | [] => None
  | c :: l' =>
      if Ascii.eqb c "}" then Some ([], l')
      else match scan_field l' with
           | Some (name, rest) => Some (c :: name, rest)
           | None => None
           end
  end.

Definition is_compound (c : ascii) : bool :=
  existsb (Ascii.eqb c) ["!"; ":"; "."; "["; "{"]%char || negb (Utf8.is_ascii c).

(** The argument that a field denotes, and the numbering after it. *)
Definition get_value (name : list ascii) (args : list (option string))
    (st : numbering) : outcome (option string * numbering) :=
  if existsb is_compound name then Raises (NotModelled "replacement field")
  else
    match name with
    | [] =>
        match st with
        | Manual =>
            Raises (ValueError
              "cannot switch from manual field specification to automatic field numbering")
        | Init =>
            match get_item args 0 with
            | Returns v => Returns (v, Auto 1)
            | Raises e => Raises e
            end
        | Auto k =>
            match get_item args (N.of_nat k) with
            | Returns v => Returns (v, Auto (S k))
            | Raises e => Raises e
            end
        end
    | _ :: _ =>
        if forallb is_digit name then
          if (PY_SSIZE_T_MAX <? int_of name)%N then
            Raises (ValueError "Too many decimal digits in format string")
          else
            match st with
            | Auto _ =>
                Raises (ValueError
                  "cannot switch from automatic field numbering to manual field specification")
            | _ =>
                match get_item args (int_of name) with
                | Returns v => Returns (v, Manual)
                | Raises e => Raises e
                end
            end
        else Raises (KeyError (Str.of_chars name))
    end.

(** The template is read from left to right; [acc] is the text produced so
    far.  The fuel is the length of the template and one more, and every
    call reads at least one character. *)
Fixpoint format_loop (fuel : nat) (l : list ascii) (args : list (option string))
    (st : numbering) (acc : string) : outcome string :=
  match fuel with
  | 0 => Raises (NotModelled "fuel")
  | S fuel' =>
      match l with
      | [] => Returns acc
      | c :: l' =>
          if Ascii.eqb c "{" then
            match l' with
            | c' :: l'' =>
                if Ascii.eqb c' "{" then
                  format_loop fuel' l'' args st (acc +:+ "{")
                else
                  match scan_field l' with
                  | Some (name, rest) =>
                      match get_value name args st with
                      | Returns (v, st') =>
                          format_loop fuel' rest args st' (acc +:+ render v)
                      | Raises e => Raises e
                      end
                  | None =>
                      if existsb is_compound l' then
                        Raises (NotModelled "replacement field")
                      else
                        Raises (ValueError "expected '}' before end of string")
                  end
            | [] => Raises (ValueError "Single '{' encountered in format string")
            end
          else if Ascii.eqb c "}" then
            match l' with
            | c' :: l'' =>
                if Ascii.eqb c' "}" then
                  format_loop fuel' l'' args st (acc +:+ "}")
                else
                  Raises (ValueError "Single '}' encountered in format string")
            | [] => Raises (ValueError "Single '}' encountered in format string")
            end
          else format_loop fuel' l' args st (acc +:+ String c "")
      end
  end.

(** [template.format] applied to the positional arguments [args] *)
Definition format (template : string) (args : list (option string))
    : outcome string :=
  format_loop (S (String.length template)) (Str.chars template) args Init "".

End Format.

(** ** The two libraries, as the rules use them

    The rules call [re.compile], [Pattern.fullmatch], [Match.group],
    [Match.groups] and [str.format], and look at nothing else of a pattern
    or a match.  [Engine] is that interface; the rules are written against
    it, and the general properties of the rules are proved for every engine.
    The models above are one engine, with which the rules run. *)

Class Engine : Type := {
  Pattern : Type;
  Match : Type;
  re_compile : string -> outcome Pattern;
  pattern_fullmatch : Pattern -> string -> outcome (option Match);
  match_group0 : Match -> string;
  match_groups : Match -> list (option string);
  str_format : string -> list (option string) -> outcome string
}.

#[global] Instance fragment_engine : Engine := {|
  Pattern := Re.Pattern;
  Match := Re.Match;
  re_compile := Re.compile;
  pattern_fullmatch := Re.fullmatch;
  match_group0 := Re.group0;
  match_groups := Re.groups;
  str_format := Format.format
|}.

(** ** PFERD.utils *)

(** [PathLike = Union[PurePath, str]] *)
Inductive PathLike : Type :=
| PathStr (s : string)
| PathObj (p : PurePath).

(** Modelled from the spec: [utils.to_path] is imported by transform.py and is
    not part of it.  The rules take "source" and "target" either as strings or
    as Path Values; a string is parsed into a path, a path is taken as it is. *)
Definition to_path (pathlike : PathLike) : PurePath :=
  match pathlike with
  | PathStr s => Path.parse s
  | PathObj p => p
  end.

Section Utils.

Context {E : Engine}.

(** [Regex = Union[str, Pattern[str]]] *)
Inductive Regex : Type :=
| RegexStr (s : string)
| RegexPattern (pat : Pattern).

(** Modelled from the spec: [utils.to_pattern] is imported by transform.py and
    is not part of it.  The regex of [re_move] and [re_rename] is given as a
    pattern string or as a compiled pattern; a string is compiled, which
    fails when it is malformed, a compiled pattern is taken as it is. *)
Definition to_pattern (regex : Regex) : outcome Pattern :=
  match regex with
  | RegexStr s => re_compile s
  | RegexPattern pat => Returns pat
  end.

End Utils.

(** ** PFERD.transform *)

(** A reference to a heap object. *)
Definition loc : Type := nat.

Section Transform.

Context {World : Type} {E : Engine}.

(** [Transform = Callable[[PurePath], Optional[PurePath]]] *)
Definition Transform : Type := PurePath -> M World (option PurePath).

(** [class Transformable]: the [path] attribute; [payload] stands for the
    attributes that subclasses add. *)
Record Transformable (Payload : Type) : Type :=
  mkTransformable { path : PurePath; payload : Payload }.

Arguments mkTransformable {Payload} path payload.
Arguments path {Payload} t.
Arguments payload {Payload} t.

Section Batch.

Context {Payload : Type}.

(** The heap of Transformables: every reference denotes an object. *)
Definition Store : Type := loc -> Transformable Payload.

(** [transformable.path] *)
Definition get_path (t : loc) : M (Store * World) PurePath :=
  fun '(st, w) => (Returns (path (st t)), (st, w)).

(** [transformable.path = new_path] *)
Definition set_path (t : loc) (new_path : PurePath) : M (Store * World) unit :=
  fun '(st, w) =>
    (Returns tt, (<[t := mkTransformable new_path (payload (st t))]> st, w)).

(** Calling a transform: it sees the world, not the store. *)
Definition call {A} (c : M World A) : M (Store * World) A :=
  fun '(st, w) => let '(o, w') := c w in (o, (st, w')).

(** The [for] loop of [apply_transform]; [result] is the list built so far.
    The test [if new_path] separates [None] from a path: a [PurePath] is
    true in a condition, whatever the path. *)
Fixpoint apply_transform_loop (transform : Transform)
    (transformables : list loc) (result : list loc)
    : M (Store * World) (list loc) :=
  match transformables with
  | [] => ret result
  | transformable :: rest =>
      old_path <- get_path transformable ;;
      new_path <- call (transform old_path) ;;
      match new_path with
      | Some q =>
          _ <- set_path transformable q ;;
          apply_transform_loop transform rest (result ++ [transformable])
      | None => apply_transform_loop transform rest result
      end
  end.

Definition apply_transform (transform : Transform)
    (transformables : list loc) : M (Store * World) (list loc) :=
  apply_transform_loop transform transformables [].

End Batch.

(** *** Transform combinators *)

Definition keep : Transform := fun path => ret (Some path).

Fixpoint apply_transforms_until_first_success (args : list Transform)
    (path : PurePath) : M World (option PurePath) :=
  match args with
  | [] => ret None
  | transform :: rest =>
      result <- transform path ;;
      match result with
      | Some r => ret (Some r)
      | None => apply_transforms_until_first_success rest path
      end
  end.

Definition attempt (args : list Transform) : Transform :=
  apply_transforms_until_first_success args.

Definition optionally (transform : Transform) : Transform :=
  attempt [transform; (fun path => ret (Some path))].

(** The loop of [do]; the second argument is [current_result]. *)
Fixpoint apply_transforms_if_all_succeed (args : list Transform)
    (current_result : PurePath) : M World (option PurePath) :=
  match args with
  | [] => ret (Some current_result)
  | transform :: rest =>
      result <- transform current_result ;;
      match result with
      | Some r => apply_transforms_if_all_succeed rest r
      | None => ret None
      end
  end.

Definition do (args : list Transform) : Transform :=
  fun path => apply_transforms_if_all_succeed args path.

Definition predicate (pred : PurePath -> M World bool) : Transform :=
  fun path =>
    b <- pred path ;;
    if b then ret (Some path) else ret None.

Definition move_dir (source_dir target_dir : PathLike) : Transform :=
  let source_path := to_path source_dir in
  let target_path := to_path target_dir in
  fun path =>
    if Path.is_parent source_path path then
      rel <- pure (Path.relative_to path source_path) ;;
      ret (Some (Path.joinpath target_path rel))
    else ret None.

Definition move (source target : PathLike) : Transform :=
  let source_path := to_path source in
  let target_path := to_path target in
  fun path =>
    if Path.eqb path source_path then ret (Some target_path) else ret None.

Definition rename (source target : string) : Transform :=
  fun path =>
    if String.eqb (Path.name path) source then
      renamed <- pure (Path.with_name path target) ;;
      ret (Some renamed)
    else ret None.

Definition glob (pattern : string) : Transform :=
  predicate (fun path => pure (Path.match_ path pattern)).

(** The groups handed to [target.format]: group 0, then the groups of the
    pattern. *)
Definition format_groups (m : Match) : list (option string) :=
  Some (match_group0 m) :: match_groups m.

(** The test [if match] separates [None] from a match object, which is true
    in a condition. *)
Definition re_move (regex : Regex) (target : string) : Transform :=
  fun path =>
    pat <- pure (to_pattern regex) ;;
    match_ <- pure (pattern_fullmatch pat (Path.str path)) ;;
    match match_ with
    | Some m =>
        formatted <- pure (str_format target (format_groups m)) ;;
        ret (Some (Path.parse formatted))
    | None => ret None
    end.

Definition re_rename (regex : Regex) (target : string) : Transform :=
  fun path =>
    pat <- pure (to_pattern regex) ;;
    match_ <- pure (pattern_fullmatch pat (Path.name path)) ;;
    match match_ with
    | Some m =>
        formatted <- pure (str_format target (format_groups m)) ;;
        renamed <- pure (Path.with_name path formatted) ;;
        ret (Some renamed)
    | None => ret None
    end.

End Transform.

Arguments mkTransformable {Payload} path payload.
Arguments path {Payload} t.
Arguments payload {Payload} t.

(** * Specification

    The relations and functions in which the properties below are stated. *)

Section Specification.

Context {World : Type}.

Implicit Types (r : @Transform World) (p q : PurePath) (w : World).

(** Every rule of [rules] rejects [p], one after the other, taking the world
    from [w] to [w']. *)
Inductive all_reject (p : PurePath) : list (@Transform World) -> World -> World -> Prop :=
| all_reject_nil w : all_reject p [] w w
| all_reject_cons r rules w w1 w' :
    r p w = (Returns None, w1) ->
    all_reject p rules w1 w' ->
    all_reject p (r :: rules) w w'.

Section BatchSpecification.

Context {Payload : Type}.

Implicit Types (t : @Transform World) (st : @Store Payload)
  (l : loc) (ls res : list loc).

(** The object at [l] with its path replaced by [q]. *)
Definition with_path st l (q : PurePath) : @Store Payload :=
  <[l := mkTransformable q (payload (st l))]> st.

(** The batch as the specification words it: the items are visited in order;
    an item whose current path the rule accepts is kept, with its path
    replaced; an item whose current path the rule rejects is omitted. *)
Inductive batch_spec t :
  list loc -> Store -> World -> list loc -> Store -> World -> Prop :=
| batch_done st w : batch_spec t [] st w [] st w
| batch_accept l ls st w q w1 res st' w' :
    t (path (st l)) w = (Returns (Some q), w1) ->
    batch_spec t ls (with_path st l q) w1 res st' w' ->
    batch_spec t (l :: ls) st w (l :: res) st' w'
| batch_reject l ls st w w1 res st' w' :
    t (path (st l)) w = (Returns None, w1) ->
    batch_spec t ls st w1 res st' w' ->
    batch_spec t (l :: ls) st w res st' w'.

End BatchSpecification.

End Specification.

(** [s] is a strict ancestor of [p]: same root, and the names of [p] are
    those of [s] followed by at least one more. *)
Definition strict_ancestor (s p : PurePath) : Prop :=
  root s = root p /\ exists rest, rest <> [] /\ names p = names s ++ rest.

Section RegexLanguage.

Import Re.

(** The language of an expression. *)
Inductive matches : regex -> list ascii -> Prop :=
| matches_eps : matches Eps []
| matches_chr c : matches (Chr c) [c]
| matches_dot c : c <> "010"%char -> matches Dot [c]
| matches_set negated items c :
    xorb negated (existsb (in_item c) items) = true ->
    matches (Set_ negated items) [c]
| matches_cat r1 r2 u v :
    matches r1 u -> matches r2 v -> matches (Cat r1 r2) (u ++ v)
| matches_alt_l r1 r2 u : matches r1 u -> matches (Alt r1 r2) u
| matches_alt_r r1 r2 u : matches r2 u -> matches (Alt r1 r2) u
| matches_rep_nil r : matches (Rep r) []
| matches_rep_more r u v :
    matches r u -> matches (Rep r) v -> matches (Rep r) (u ++ v)
| matches_group k r u : matches r u -> matches (Group k r) u.

(** The characters of [s] from position [i] up to position [j]. *)
Definition between (s : list ascii) (i j : nat) : list ascii :=
  take (j - i) (drop i s).

End RegexLanguage.

Section Templates.

Import Format.

(** The pieces of a template that only has text and numbered fields: a
    character other than a brace, an escaped brace, or [{k}] with [k] written
    in decimal digits. *)
Inductive piece : Type :=
| Text (c : ascii)
| OpenBrace
| CloseBrace
| Field (digits : list ascii).

Definition show_piece (it : piece) : list ascii :=
  match it with
  | Text c => [c]
  | OpenBrace => ["{"; "{"]%char
  | CloseBrace => ["}"; "}"]%char
  | Field digits => "{"%char :: digits ++ ["}"%char]
  end.

(** The template that the pieces spell. *)
Definition show (items : list piece) : string :=
  Str.of_chars (flat_map show_piece items).

(** The pieces are well formed for [n] arguments: a field numbers one of
    them. *)
Definition piece_ok (n : nat) (it : piece) : Prop :=
  match it with
  | Text c => c <> "{"%char /\ c <> "}"%char
  | OpenBrace | CloseBrace => True
  | Field digits =>
      digits <> [] /\ forallb is_digit digits = true /\
      (int_of digits < N.of_nat n)%N /\ (int_of digits <= PY_SSIZE_T_MAX)%N
  end.

(** What a piece is replaced by: a field by the argument it numbers. *)
Definition subst_piece (args : list (option string)) (it : piece) : string :=
  match it with
  | Text c => String c ""
  | OpenBrace => "{"
  | CloseBrace => "}"
  | Field digits =>
      match args !! N.to_nat (int_of digits) with
      | Some v => render v
      | None => ""
      end
  end.

Fixpoint substitute (args : list (option string)) (items : list piece)
    : string :=
  match items with
  | [] => ""
  | it :: items' => subst_piece args it +:+ substitute args items'
  end.

End Templates.

(** What the properties of the rules need of the two libraries.  A full
    match spans the subject: its group 0 is the whole subject.  A template
    of text, escaped braces and fields [{k}], each numbering an argument, is
    formatted to its text with every field replaced by its argument.  Both
    are facts of [Pattern.fullmatch] and of [str.format]; both are proved of
    the models ([fragment_lawful]). *)
Record lawful (E : Engine) : Prop := {
  fullmatch_group0 : forall pat s m,
    pattern_fullmatch pat s = Returns (Some m) -> match_group0 m = s;
  format_fields : forall items args,
    Forall (piece_ok (length args)) items ->
    str_format (show items) args = Returns (substitute args items)
}.

(** The wildcards of [fnmatch], as a relation between the tokens of a
    pattern and the code points of a name: [*] stands for any code points,
    none included, [?] for one code point, a class for one code point that
    is among its items (or is not, for a negated class), and a literal for
    itself. *)
Inductive wild : list Fnmatch.token -> list N -> Prop :=
| wild_nil : wild [] []
| wild_star ts u v : wild ts v -> wild (Fnmatch.Star :: ts) (u ++ v)
| wild_any ts c v : wild ts v -> wild (Fnmatch.Any :: ts) (c :: v)
| wild_class negated items ts c v :
    xorb negated (existsb (Fnmatch.in_item c) items) = true ->
    wild ts v -> wild (Fnmatch.Class negated items :: ts) (c :: v)
| wild_lit ts c v : wild ts v -> wild (Fnmatch.Lit c :: ts) (c :: v).

(** A second definition, from the words of the specification: the
    shell-glob match of a pattern against the string form of a path.  Pattern
    and path are cut at the slashes; the component [**] stands for any
    number of path components, none included, and any other component is
    matched against one path component with the wildcards [*], [?] and the
    character classes. *)
Fixpoint glob_spec_parts (pats comps : list string) : bool :=
  match pats with
  | [] => match comps with [] => true | _ => false end
  | pat :: pats' =>
      if String.eqb pat "**" then
        (fix skip (comps : list string) : bool :=
           glob_spec_parts pats' comps
           || match comps with [] => false | _ :: cs => skip cs end) comps
      else
        match comps with
        | c :: cs => Fnmatch.fnmatchcase c pat && glob_spec_parts pats' cs
        | [] => false
        end
  end.

Definition glob_spec (pattern : string) (p : PurePath) : bool :=
  glob_spec_parts (Str.split Str.slash pattern) (Str.split Str.slash (Path.str p)).

(** What [PurePath.match] accepts.  A pattern without a root is compared with
    the last parts of the path, as many as the pattern has; a pattern with a
    root is compared with the whole path, which must have the same root. *)
Definition glob_accepts (pattern : string) (p : PurePath) : Prop :=
  let pat := Path.parse pattern in
  if String.eqb (root pat) "" then
    length (names pat) <= length (Path.parts p) /\
    Forall2 (fun part pt => Fnmatch.fnmatchcase part pt = true)
      (drop (length (Path.parts p) - length (names pat)) (Path.parts p))
      (names pat)
  else
    root pat = root p /\
    Forall2 (fun part pt => Fnmatch.fnmatchcase part pt = true)
      (names p) (names pat).

(** ** Further relations *)

Section FurtherSpecification.

Context {World : Type}.

Implicit Types (r : @Transform World) (p q : PurePath) (w : World).

(** Every rule of [rules] accepts, each one the output of the one before it:
    the pipeline takes [p] to [q] and the world from [w] to [w']. *)
Inductive pipeline : PurePath -> list (@Transform World) -> World ->
                     PurePath -> World -> Prop :=
| pipeline_nil p w : pipeline p [] w p w
| pipeline_cons p r rules w p1 w1 q w' :
    r p w = (Returns (Some p1), w1) ->
    pipeline p1 rules w1 q w' ->
    pipeline p (r :: rules) w q w'.

(** The rule returns without raising, whatever the path and the world. *)
Definition never_raises r : Prop :=
  forall p w, exists o w', r p w = (Returns o, w').

(** The rule accepts every path, in every world. *)
Definition always_accepts r : Prop :=
  forall p w, exists q w', r p w = (Returns (Some q), w').

(** The rule is a filter: what it accepts it returns unchanged. *)
Definition is_filter r : Prop :=
  forall p w q w', r p w = (Returns (Some q), w') -> q = p.

End FurtherSpecification.

(** The pipeline of two pure functions. *)
Definition then_fun (f1 f2 : PurePath -> option PurePath) (p : PurePath)
    : option PurePath :=
  match f1 p with
  | Some q => f2 q
  | None => None
  end.

(** The test of [with_name] on the new name: not empty, no slash at its end,
    and parsed as a path it has no root and exactly one part. *)
Definition name_ok (new_name : string) : bool :=
  negb (String.eqb new_name ""
        || bool_decide (Str.last_char new_name = Some Str.slash)
        || negb (String.eqb (root (Path.parse new_name)) "")
        || negb (length (Path.parts (Path.parse new_name)) =? 1)).

(** The path [p] with its last name replaced by [n]. *)
Definition replace_name (p : PurePath) (n : string) : PurePath :=
  mkPath (root p) (removelast (names p) ++ [n]).

(** The string has a slash in it. *)
Definition has_slash (s : string) : bool :=
  existsb (Ascii.eqb Str.slash) (Str.chars s).

(** A plain name: not empty, not a single dot, no slash in it. *)
Definition is_plain (s : string) : bool := Path.is_name s && negb (has_slash s).

(** A path as [PurePath] builds it: the root is empty, one slash or two
    slashes, and every name is plain. *)
Definition wf_path (p : PurePath) : Prop :=
  (root p = "" \/ root p = "/" \/ root p = "//") /\
  Forall (fun n => is_plain n = true) (names p).

(** The rule returns a well-formed path whenever it accepts a well-formed
    path. *)
Definition preserves_wf {World : Type} (r : @Transform World) : Prop :=
  forall p w q w',
    wf_path p -> r p w = (Returns (Some q), w') -> wf_path q.

(** ** Sample data

    A store of three objects with the paths [a], [b] and [c] (every other
    reference has the path [c]); a rule that accepts the path [b] only; and
    rules that record their invocation in a world that is a log.  The regex
    rules of the samples run with the models of [re] and [str.format]. *)

Definition shelf : @Store nat :=
  fun l =>
    mkTransformable
      (Path.parse (match l with 0 => "a" | 1 => "b" | _ => "c" end)) l.

Definition only_b : @Transform unit := move (PathStr "b") (PathStr "x/b").

Definition a_to_b : @Transform unit := move (PathStr "a") (PathStr "b").

Definition logged (label : string) (answer : outcome (option PurePath))
    : @Transform (list string) :=
  fun _ log => (answer, log ++ [label]).

(** A rule that accepts the path [a] and raises on every other path: the
    regex of its second alternative does not compile. *)
Definition a_or_raise : @Transform unit :=
  attempt [move (PathStr "a") (PathStr "x"); re_move (RegexStr "(") "{0}"].

(** A name of one character outside ASCII, U+65E5: three bytes in UTF-8. *)
Definition one_character : string :=
  String "230" (String "151" (String "165" "")).

(** [move] as a function of the path. *)
Definition move_fun (source target : PathLike) (p : PurePath)
    : option PurePath :=
  if Path.eqb p (to_path source) then Some (to_path target) else None.

(** * Properties *)

Section CombinatorFacts.

Context {World : Type}.

Implicit Types (r : @Transform World) (p q : PurePath) (w : World).

Lemma attempt_cons r rules p w :
  attempt (r :: rules) p w =
  match r p w with
  | (Returns (Some x), w1) => (Returns (Some x), w1)
  | (Returns None, w1) => attempt rules p w1
  | (Raises e, w1) => (Raises e, w1)
  end.
Proof.
  unfold attempt; simpl. unfold bind.
  destruct (r p w) as [[[x|]|e] w1]; reflexivity.
Qed.

Lemma attempt_rejects_iff rules p : forall w w',
  attempt rules p w = (Returns None, w') <-> all_reject p rules w w'.
Proof.
  induction rules as [|r rules IH]; intros w w'.
  - split.
    + intros H. inversion H; subst. constructor.
    + intros H. inversion H; subst. reflexivity.
  - rewrite attempt_cons. split.
    + intros H. destruct (r p w) as [[[x|]|e] w1] eqn:E; try discriminate.
      econstructor; [exact E|]. apply IH, H.
    + intros H. inversion H as [|? ? ? w1 ? Hr Hrest]; subst.
      rewrite Hr. apply IH, Hrest.
Qed.

Lemma attempt_first_accepting pre : forall r post p q w w1 w2,
  all_reject p pre w w1 ->
  r p w1 = (Returns (Some q), w2) ->
  attempt (pre ++ r :: post) p w = (Returns (Some q), w2).
Proof.
  induction pre as [|r0 pre IH]; intros r post p q w w1 w2 Hrej Hacc.
  - inversion Hrej; subst. cbn [app]. rewrite attempt_cons, Hacc. reflexivity.
  - inversion Hrej as [|? ? ? w0 ? Hr0 Hrest]; subst. cbn [app].
    rewrite attempt_cons, Hr0. eapply IH; eauto.
Qed.

Lemma attempt_accepts_inv rules p : forall q w w2,
  attempt rules p w = (Returns (Some q), w2) ->
  exists pre r post w1,
    rules = pre ++ r :: post /\ all_reject p pre w w1 /\
    r p w1 = (Returns (Some q), w2).
Proof.
  induction rules as [|r rules IH]; intros q w w2 H.
  - discriminate.
  - rewrite attempt_cons in H.
    destruct (r p w) as [[[x|]|e] w1] eqn:E; try discriminate.
    + inversion H; subst. exists [], r, rules, w. repeat split; [constructor|exact E].
    + destruct (IH _ _ _ H) as (pre & r' & post & w1' & -> & Hrej & Hacc).
      exists (r :: pre), r', post, w1'. repeat split; [|exact Hacc].
      econstructor; eauto.
Qed.

End CombinatorFacts.

Section CombinatorClaims.

Context {World : Type}.

Implicit Types (r : @Transform World) (p q : PurePath) (w : World).

(** C2. [attempt(r1, ..., rn)] applies the rules in the given order, each one
    to the original path [p].  It rejects exactly when every rule rejects
    [p].  When the rules before [r] reject and [r] accepts with [q], the
    result is [q] and the world is the one [r] left, whatever rules follow
    [r]: none of them is invoked.  Conversely an accepted result is always
    the result of the first rule that accepts. *)
Theorem attempt_first_match_wins (rules : list (@Transform World)) p w :
  (forall w', attempt rules p w = (Returns None, w') <->
              all_reject p rules w w') /\
  (forall pre r post q w1 w2,
      rules = pre ++ r :: post ->
      all_reject p pre w w1 ->
      r p w1 = (Returns (Some q), w2) ->
      forall later, attempt (pre ++ r :: later) p w = (Returns (Some q), w2)) /\
  (forall q w2,
      attempt rules p w = (Returns (Some q), w2) ->
      exists pre r post w1,
        rules = pre ++ r :: post /\ all_reject p pre w w1 /\
        r p w1 = (Returns (Some q), w2)).
Proof.
  split; [|split].
  - intros w'. apply attempt_rejects_iff.
  - intros pre r post q w1 w2 _ Hrej Hacc later.
    eapply attempt_first_accepting; eauto.
  - intros q w2. apply attempt_accepts_inv.
Qed.

(** C7. A pipeline of one rule is that rule: same result, same exception,
    same effect on the world. *)
Theorem do_single r p w : do [r] p w = r p w.
Proof.
  unfold do; simpl. unfold bind, ret.
  destruct (r p w) as [[[x|]|e] w1]; reflexivity.
Qed.

(** C8. [optionally(r)] never rejects: it gives [r]'s result when [r]
    accepts, the path itself when [r] rejects (and [r]'s exception when [r]
    raises); and it is [attempt(r, keep)]. *)
Theorem optionally_never_rejects r p w :
  optionally r p w =
    match r p w with
    | (Returns (Some q), w1) => (Returns (Some q), w1)
    | (Returns None, w1) => (Returns (Some p), w1)
    | (Raises e, w1) => (Raises e, w1)
    end /\
  (forall w', optionally r p w <> (Returns None, w')) /\
  optionally r p w = attempt [r; keep] p w.
Proof.
  assert (E : optionally r p w =
    match r p w with
    | (Returns (Some q), w1) => (Returns (Some q), w1)
    | (Returns None, w1) => (Returns (Some p), w1)
    | (Raises e, w1) => (Raises e, w1)
    end).
  { unfold optionally. rewrite attempt_cons.
    destruct (r p w) as [[[x|]|e] w1]; reflexivity. }
  split; [exact E|split].
  - intros w'. rewrite E.
    destruct (r p w) as [[[x|]|e] w1]; discriminate.
  - reflexivity.
Qed.

(** C10. The pipeline of no rule accepts every path and returns it
    unchanged; the alternation of no rule rejects every path. *)
Theorem nullary_combinators p w :
  do [] p w = (Returns (Some p), w) /\
  attempt (World:=World) [] p w = (Returns None, w).
Proof. split; reflexivity. Qed.

End CombinatorClaims.

Section BatchFacts.

Context {World Payload : Type}.

Implicit Types (t : @Transform World) (st : @Store Payload) (w : World)
  (l : loc) (ls res acc : list loc).

Lemma with_path_same st l q :
  with_path st l q l = mkTransformable q (payload (st l)).
Proof. unfold with_path, insert, fn_insert. by rewrite decide_True. Qed.

Lemma with_path_other st l q l' : l <> l' -> with_path st l q l' = st l'.
Proof. intros H. unfold with_path, insert, fn_insert. by rewrite decide_False. Qed.

Lemma apply_transform_loop_cons t l ls acc st w :
  apply_transform_loop t (l :: ls) acc (st, w) =
  match t (path (st l)) w with
  | (Returns (Some q), w1) =>
      apply_transform_loop t ls (acc ++ [l]) (with_path st l q, w1)
  | (Returns None, w1) => apply_transform_loop t ls acc (st, w1)
  | (Raises e, w1) => (Raises e, (st, w1))
  end.
Proof.
  simpl. unfold bind, get_path, call, set_path, with_path.
  destruct (t (path (st l)) w) as [[[q|]|e] w1]; reflexivity.
Qed.

Lemma apply_transform_loop_acc t ls : forall acc (s : @Store Payload * World),
  apply_transform_loop t ls acc s =
  match apply_transform_loop t ls [] s with
  | (Returns res, s') => (Returns (acc ++ res), s')
  | (Raises e, s') => (Raises e, s')
  end.
Proof.
  induction ls as [|l ls IH]; intros acc [st w].
  - simpl. unfold ret. rewrite app_nil_r. reflexivity.
  - rewrite !apply_transform_loop_cons.
    destruct (t (path (st l)) w) as [[[q|]|e] w1]; [|apply IH|reflexivity].
    rewrite (IH (acc ++ [l])), (IH ([] ++ [l])).
    destruct (apply_transform_loop t ls [] _) as [[res|e] s']; [|reflexivity].
    rewrite <- app_assoc. reflexivity.
Qed.

Lemma apply_transform_cons t l ls st w :
  apply_transform t (l :: ls) (st, w) =
  match t (path (st l)) w with
  | (Returns (Some q), w1) =>
      match apply_transform t ls (with_path st l q, w1) with
      | (Returns res, s') => (Returns (l :: res), s')
      | (Raises e, s') => (Raises e, s')
      end
  | (Returns None, w1) => apply_transform t ls (st, w1)
  | (Raises e, w1) => (Raises e, (st, w1))
  end.
Proof.
  unfold apply_transform. rewrite apply_transform_loop_cons.
  destruct (t (path (st l)) w) as [[[q|]|e] w1]; try reflexivity.
  apply apply_transform_loop_acc.
Qed.

Lemma apply_transform_returns_iff t ls : forall st w res st' w',
  apply_transform t ls (st, w) = (Returns res, (st', w')) <->
  batch_spec t ls st w res st' w'.
Proof.
  induction ls as [|l ls IH]; intros st w res st' w'.
  - split.
    + intros H. inversion H; subst. constructor.
    + intros H. inversion H; subst. reflexivity.
  - rewrite apply_transform_cons. split.
    + intros H. destruct (t (path (st l)) w) as [[[q|]|e] w1] eqn:E.
      * destruct (apply_transform t ls _) as [[res0|e] [st0 w0]] eqn:E0;
          inversion H; subst.
        eapply batch_accept; [exact E|]. apply IH, E0.
      * eapply batch_reject; [exact E|]. apply IH, H.
      * discriminate.
    + intros H. inversion H; subst.
      * match goal with
        | Ha : t _ _ = _, Hb : batch_spec _ _ _ _ _ _ _ |- _ =>
            rewrite Ha; apply IH in Hb; rewrite Hb; reflexivity
        end.
      * match goal with
        | Ha : t _ _ = _, Hb : batch_spec _ _ _ _ _ _ _ |- _ =>
            rewrite Ha; apply IH, Hb
        end.
Qed.

Lemma batch_spec_sublist t ls st w res st' w' :
  batch_spec t ls st w res st' w' -> sublist res ls.
Proof.
  induction 1; [constructor| |].
  - by apply sublist_skip.
  - by apply sublist_cons.
Qed.

Lemma apply_transform_raises_inv t ls : forall st w e s',
  apply_transform t ls (st, w) = (Raises e, s') ->
  exists p w0 w1, t p w0 = (Raises e, w1).
Proof.
  induction ls as [|l ls IH]; intros st w e s' H.
  - discriminate.
  - rewrite apply_transform_cons in H.
    destruct (t (path (st l)) w) as [[[q|]|e0] w1] eqn:E.
    + destruct (apply_transform t ls _) as [[res0|e1] [st0 w0]] eqn:E0;
        inversion H; subst. eapply IH; eauto.
    + eapply IH; eauto.
    + inversion H; subst. eauto.
Qed.

End BatchFacts.

Section BatchClaims.

Context {World Payload : Type}.

Implicit Types (t : @Transform World) (st : @Store Payload) (w : World)
  (l : loc) (ls res : list loc).

Lemma batch_spec_untouched t ls st w res st' w' :
  batch_spec t ls st w res st' w' ->
  forall l, l ∉ res -> st' l = st l.
Proof.
  induction 1 as [| l0 ls st w q w1 res st' w' Hq _ IH
                  | l0 ls st w w1 res st' w' Hq _ IH]; intros l Hl.
  - reflexivity.
  - apply not_elem_of_cons in Hl as [Hne Hl].
    rewrite (IH l Hl). by apply with_path_other.
  - auto.
Qed.

Lemma with_path_payload st l q l' :
  payload (with_path st l q l') = payload (st l').
Proof.
  destruct (decide (l = l')) as [->|Hne].
  - by rewrite with_path_same.
  - by rewrite with_path_other.
Qed.

Lemma batch_spec_payload t ls st w res st' w' :
  batch_spec t ls st w res st' w' ->
  forall l, payload (st' l) = payload (st l).
Proof.
  induction 1 as [| l0 ls st w q w1 res st' w' Hq _ IH
                  | l0 ls st w w1 res st' w' Hq _ IH]; intros l; auto.
  rewrite IH. apply with_path_payload.
Qed.

Lemma with_path_path st st2 l q :
  (forall l', path (st2 l') = path (st l')) ->
  forall l', path (with_path st2 l q l') = path (with_path st l q l').
Proof.
  intros H l'. destruct (decide (l = l')) as [->|Hne].
  - by rewrite !with_path_same.
  - rewrite !with_path_other by done. apply H.
Qed.

(** The run depends on the paths in the store only. *)
Lemma batch_spec_paths_only t ls st w res st' w' :
  batch_spec t ls st w res st' w' ->
  forall st2, (forall l, path (st2 l) = path (st l)) ->
  exists st2', batch_spec t ls st2 w res st2' w' /\
               (forall l, path (st2' l) = path (st' l)).
Proof.
  induction 1 as [| l0 ls st w q w1 res st' w' Hq _ IH
                  | l0 ls st w w1 res st' w' Hq _ IH]; intros st2 Heq.
  - exists st2. split; [constructor|exact Heq].
  - destruct (IH (with_path st2 l0 q)) as (st2' & Hrun & Hp).
    { by apply with_path_path. }
    exists st2'. split; [|exact Hp].
    eapply batch_accept; [|exact Hrun]. rewrite Heq. exact Hq.
  - destruct (IH st2 Heq) as (st2' & Hrun & Hp).
    exists st2'. split; [|exact Hp].
    eapply batch_reject; [|exact Hrun]. rewrite Heq. exact Hq.
Qed.

Lemma filter_ext_elem (P Q : loc -> Prop)
    `{!forall x, Decision (P x)} `{!forall x, Decision (Q x)} ls :
  (forall x, x ∈ ls -> (P x <-> Q x)) -> filter P ls = filter Q ls.
Proof.
  induction ls as [|x ls IH]; intros Hiff; [reflexivity|].
  rewrite !filter_cons.
  destruct (decide (P x)) as [HP|HP], (decide (Q x)) as [HQ|HQ].
  - f_equal. apply IH. intros y Hy. apply Hiff. by right.
  - exfalso. apply HQ, Hiff; [by left|done].
  - exfalso. apply HP, Hiff; [by left|done].
  - apply IH. intros y Hy. apply Hiff. by right.
Qed.

(** A rule that is a pure function, applied to a batch of distinct objects:
    the survivors are the accepted items, filtered in order, and the final
    store differs from the initial one at the accepted items only. *)
Lemma batch_spec_pure (f : PurePath -> option PurePath) t ls :
  (forall p w, t p w = (Returns (f p), w)) ->
  NoDup ls ->
  forall st w,
  exists st',
    batch_spec t ls st w
      (filter (fun l => is_Some (f (path (st l)))) ls) st' w /\
    (forall l, st' l =
       match f (path (st l)) with
       | Some q => if decide (l ∈ ls) then mkTransformable q (payload (st l))
                   else st l
       | None => st l
       end).
Proof.
  intros Hpure. induction ls as [|l0 ls IH]; intros Hnd st w.
  - exists st. split; [constructor|].
    intros l. destruct (f (path (st l))); [|done].
    destruct (decide (l ∈ [])) as [Hin|]; [|done]. by apply elem_of_nil in Hin.
  - apply NoDup_cons in Hnd as [Hnotin Hnd].
    rewrite filter_cons.
    destruct (f (path (st l0))) as [q|] eqn:Ef.
    + destruct (IH Hnd (with_path st l0 q) w) as (st' & Hrun & Hst').
      exists st'. destruct (decide (is_Some (Some q))) as [_|Hn];
        [|exfalso; apply Hn; eauto].
      split.
      * eapply batch_accept; [rewrite Hpure, Ef; reflexivity|].
        erewrite (filter_ext_elem _ (fun l => is_Some (f (path (with_path st l0 q l))))); [exact Hrun|].
        intros x Hx.
        rewrite with_path_other; [done|]. intros ->. done.
      * intros l. rewrite Hst'.
        destruct (decide (l0 = l)) as [<-|Hne].
        -- rewrite with_path_same. simpl.
           destruct (decide (l0 ∈ ls)); [done|].
           rewrite Ef. destruct (f q); rewrite decide_True by (by left); done.
        -- rewrite with_path_other by done.
           destruct (f (path (st l))); [|done].
           destruct (decide (l ∈ ls)) as [Hin|Hin].
           ++ rewrite decide_True by (by right). done.
           ++ rewrite decide_False; [done|].
              intros [->|?]%elem_of_cons; done.
    + destruct (IH Hnd st w) as (st' & Hrun & Hst').
      exists st'. destruct (decide (is_Some (@None PurePath))) as [[? Hn]|_];
        [discriminate|].
      split.
      * eapply batch_reject; [rewrite Hpure, Ef; reflexivity|exact Hrun].
      * intros l. rewrite Hst'.
        destruct (f (path (st l))) eqn:El; [|done].
        destruct (decide (l ∈ ls)) as [Hin|Hin].
        -- rewrite decide_True by (by right). done.
        -- rewrite decide_False; [done|].
           intros [->|?]%elem_of_cons; [congruence|done].
Qed.

(** C1. [apply_transform] returns exactly the list that the specification
    describes: the items are visited in their original order, an item whose
    current path the rule accepts survives with its path replaced by the
    rule's output, an item whose current path the rule rejects is omitted.
    The survivors are a subsequence of the input, so their relative order is
    that of the input.  The applicator has no failure of its own: it raises
    only an exception that the rule raised.  For a rule that is a pure
    function and a batch of distinct objects the result is the input filtered
    by acceptance, and the store is updated at the accepted items. *)
Theorem apply_transform_spec t ls st w :
  (forall res st' w',
      apply_transform t ls (st, w) = (Returns res, (st', w')) <->
      batch_spec t ls st w res st' w') /\
  (forall res s',
      apply_transform t ls (st, w) = (Returns res, s') -> sublist res ls) /\
  (forall e s',
      apply_transform t ls (st, w) = (Raises e, s') ->
      exists p w0 w1, t p w0 = (Raises e, w1)) /\
  (forall f : PurePath -> option PurePath,
      (forall p w0, t p w0 = (Returns (f p), w0)) ->
      NoDup ls ->
      exists st',
        apply_transform t ls (st, w) =
          (Returns (filter (fun l => is_Some (f (path (st l)))) ls), (st', w)) /\
        (forall l, st' l =
           match f (path (st l)) with
           | Some q =>
               if decide (l ∈ ls) then mkTransformable q (payload (st l))
               else st l
           | None => st l
           end)).
Proof.
  split; [|split; [|split]].
  - intros res st' w'. apply apply_transform_returns_iff.
  - intros res [st' w'] H. apply apply_transform_returns_iff in H.
    eapply batch_spec_sublist; eauto.
  - intros e s' H. eapply apply_transform_raises_inv; eauto.
  - intros f Hpure Hnd.
    destruct (batch_spec_pure f t ls Hpure Hnd st w) as (st' & Hrun & Hst').
    exists st'. split; [|exact Hst'].
    apply apply_transform_returns_iff, Hrun.
Qed.

(** C9. When [apply_transform] returns, every element of the result is one
    of the references of the input (the same object, not a copy); an object
    that is not in the result, that is one the rule never accepted, is
    exactly as it was before the call, path included; no object has its
    payload changed; and the payloads are not read: a store with the same
    paths and any other payloads gives the same result, the same final world
    and the same final paths. *)
Theorem apply_transform_frame t ls st w res st' w' :
  apply_transform t ls (st, w) = (Returns res, (st', w')) ->
  sublist res ls /\
  (forall l, l ∉ res -> st' l = st l) /\
  (forall l, payload (st' l) = payload (st l)) /\
  (forall st2 : @Store Payload,
      (forall l, path (st2 l) = path (st l)) ->
      exists st2',
        apply_transform t ls (st2, w) = (Returns res, (st2', w')) /\
        (forall l, path (st2' l) = path (st' l))).
Proof.
  intros H. apply apply_transform_returns_iff in H.
  split; [|split; [|split]].
  - eapply batch_spec_sublist; eauto.
  - eapply batch_spec_untouched; eauto.
  - eapply batch_spec_payload; eauto.
  - intros st2 Heq.
    destruct (batch_spec_paths_only _ _ _ _ _ _ _ H st2 Heq) as (st2' & Hrun & Hp).
    exists st2'. split; [|exact Hp].
    apply apply_transform_returns_iff, Hrun.
Qed.

End BatchClaims.

(** ** Paths *)

Section PathFacts.

Lemma path_eqb_eq (p q : PurePath) : Path.eqb p q = true <-> p = q.
Proof.
  unfold Path.eqb. rewrite bool_decide_eq_true.
  destruct p, q; simpl. split; [intros [-> ->]; done|].
  intros H. by inversion H.
Qed.

Lemma is_parent_iff (s p : PurePath) :
  Path.is_parent s p = true <-> strict_ancestor s p.
Proof.
  unfold Path.is_parent, Path.parents, strict_ancestor.
  rewrite existsb_exists. split.
  - intros (a & Hin & Heq). apply path_eqb_eq in Heq. subst a.
    apply in_map_iff in Hin as (idx & <- & Hidx). apply in_seq in Hidx. simpl.
    split; [done|].
    exists (drop (length (names p) - idx - 1) (names p)).
    split; [|by rewrite take_drop].
    intros Hnil. apply (f_equal length) in Hnil.
    rewrite length_drop in Hnil. simpl in Hnil. lia.
  - intros (Hroot & rest & Hne & Hnames).
    exists s. split; [|by apply path_eqb_eq].
    apply in_map_iff. exists (length rest - 1).
    assert (0 < length rest) by (destruct rest; [done|simpl; lia]).
    split.
    + rewrite Hnames, length_app.
      replace (length (names s) + length rest - (length rest - 1) - 1)
        with (length (names s)) by lia.
      rewrite take_app_length, <- Hroot. by destruct s.
    + apply in_seq. rewrite Hnames, length_app. lia.
Qed.

Lemma relative_to_descendant (s p : PurePath) rest :
  root s = root p -> names p = names s ++ rest ->
  Path.relative_to p s = Returns (mkPath "" rest).
Proof.
  intros Hroot Hnames. unfold Path.relative_to. rewrite Hroot.
  destruct (String.eqb (root p) "") eqn:Er.
  - destruct (names s) as [|x xs] eqn:Es.
    + simpl. simpl in Hnames. by rewrite Hnames.
    + cbn [length Nat.eqb negb]. rewrite Hnames.
      change (S (length xs)) with (length (x :: xs)).
      rewrite take_app_length, drop_app_length, bool_decide_true by done.
      simpl. apply String.eqb_eq in Er. rewrite Er.
      by destruct (length xs =? 0).
  - cbn [length Nat.eqb negb]. rewrite Hnames.
    change (take (S (S (length (names s)))) ("" :: root p :: names s ++ rest))
      with ("" :: root p :: take (length (names s)) (names s ++ rest)).
    rewrite take_app_length, bool_decide_true by done. simpl.
    by rewrite drop_app_length.
Qed.

End PathFacts.

Section MoveDir.

Context {World : Type}.

(** C3. [move_dir(source_dir, target_dir)] accepts a path exactly when
    [source_dir] is a strict ancestor of it, and then returns [target_dir]
    followed by the names of the path below [source_dir]; otherwise it
    rejects.  It never raises and leaves the world alone.  With ["raw"] and
    ["sorted"]: [raw/2023/a.txt] goes to [sorted/2023/a.txt], [raw] itself
    and [other/raw/a.txt] are rejected. *)
Theorem move_dir_spec (source_dir target_dir : PathLike) (p : PurePath)
    (w : World) :
  let s := to_path source_dir in
  let t := to_path target_dir in
  (forall rest,
      root s = root p -> names p = names s ++ rest -> rest <> [] ->
      move_dir source_dir target_dir p w =
        (Returns (Some (mkPath (root t) (names t ++ rest))), w)) /\
  (~ strict_ancestor s p ->
      move_dir source_dir target_dir p w = (Returns None, w)) /\
  (forall q w',
      move_dir source_dir target_dir p w = (Returns (Some q), w') ->
      strict_ancestor s p) /\
  move_dir (PathStr "raw") (PathStr "sorted") (Path.parse "raw/2023/a.txt") w =
    (Returns (Some (Path.parse "sorted/2023/a.txt")), w) /\
  move_dir (PathStr "raw") (PathStr "sorted") (Path.parse "raw") w =
    (Returns None, w) /\
  move_dir (PathStr "raw") (PathStr "sorted") (Path.parse "other/raw/a.txt") w =
    (Returns None, w).
Proof.
  intros s t.
  assert (Hrej : ~ strict_ancestor s p ->
            move_dir source_dir target_dir p w = (Returns None, w)).
  { intros Hn. unfold move_dir. fold s t.
    destruct (Path.is_parent s p) eqn:E; [|reflexivity].
    apply is_parent_iff in E. contradiction. }
  split; [|split; [exact Hrej|split; [|repeat split]]].
  - intros rest Hroot Hnames Hne.
    unfold move_dir. fold s t.
    assert (E : Path.is_parent s p = true).
    { apply is_parent_iff. split; [done|]. by exists rest. }
    rewrite E. unfold bind, pure, ret.
    rewrite (relative_to_descendant s p rest Hroot Hnames).
    reflexivity.
  - intros q w' H.
    destruct (Path.is_parent s p) eqn:E; [by apply is_parent_iff|].
    unfold move_dir in H. fold s t in H. rewrite E in H. discriminate.
Qed.

End MoveDir.

(** ** Regular expressions *)

Section ReFacts.

Import Re.

Lemma between_same s i : between s i i = [].
Proof. unfold between. by rewrite Nat.sub_diag. Qed.

Lemma between_one s i a : s !! i = Some a -> between s i (S i) = [a].
Proof.
  intros H. unfold between. replace (S i - i) with 1 by lia.
  by rewrite (drop_S _ _ _ H).
Qed.

Lemma between_app s i j k :
  i <= j -> j <= k -> between s i j ++ between s j k = between s i k.
Proof.
  intros Hij Hjk. unfold between.
  replace (drop j s) with (drop (j - i) (drop i s))
    by (rewrite drop_drop; f_equal; lia).
  rewrite take_take_drop. f_equal. lia.
Qed.

Lemma between_all s : between s 0 (length s) = s.
Proof. unfold between. rewrite drop_0, Nat.sub_0_r. by apply take_ge. Qed.

(** Whatever the matcher answers was answered by its continuation, at a
    position [j] such that the text between [i] and [j] is in the language of
    the expression; the number of spans does not change. *)
Lemma run_sound s n : forall r i cs k x,
  length cs = n ->
  run s r i cs k = Some x ->
  exists j cs', i <= j /\ matches r (between s i j) /\ length cs' = n /\
                k j cs' = Some x.
Proof.
  induction r as [|c| |negated items|r1 IH1 r2 IH2|r1 IH1 r2 IH2|r IH|g r IH];
    intros i cs k x Hlen H; cbn [run] in H.
  - exists i, cs. rewrite between_same. repeat split; [lia|constructor|done|done].
  - destruct (s !! i) as [a|] eqn:Ea; [|discriminate].
    destruct (Ascii.eqb a c) eqn:Eac; [|discriminate].
    apply Ascii.eqb_eq in Eac. subst a.
    exists (S i), cs. rewrite (between_one _ _ _ Ea).
    repeat split; [lia|constructor|done|done].
  - destruct (s !! i) as [a|] eqn:Ea; [|discriminate].
    destruct (Ascii.eqb a "010") eqn:Eac; [discriminate|].
    apply Ascii.eqb_neq in Eac.
    exists (S i), cs. rewrite (between_one _ _ _ Ea).
    repeat split; [lia|by constructor|done|done].
  - destruct (s !! i) as [a|] eqn:Ea; [|discriminate].
    destruct (xorb negated (existsb (in_item a) items)) eqn:Ex;
      [|discriminate].
    exists (S i), cs. rewrite (between_one _ _ _ Ea).
    repeat split; [lia|by constructor|done|done].
  - apply IH1 in H as (j1 & cs1 & Hij & Hm1 & Hl1 & H); [|done].
    apply IH2 in H as (j2 & cs2 & Hjk & Hm2 & Hl2 & H); [|done].
    exists j2, cs2. rewrite <- (between_app s i j1 j2) by done.
    repeat split; [lia|by constructor|done|done].
  - destruct (run s r1 i cs k) as [y|] eqn:E1.
    + inversion H; subst y.
      apply IH1 in E1 as (j & cs' & ? & ? & ? & ?); [|done].
      exists j, cs'. repeat split; [done|by apply matches_alt_l|done|done].
    + apply IH2 in H as (j & cs' & ? & ? & ? & ?); [|done].
      exists j, cs'. repeat split; [done|by apply matches_alt_r|done|done].
  - revert H. generalize (S (length s - i)). intros fuel.
    revert i cs Hlen x. induction fuel as [|fuel IHf]; intros i cs Hlen x H;
      simpl in H.
    + exists i, cs. rewrite between_same.
      repeat split; [lia|constructor|done|done].
    + match type of H with
      | match ?c with _ => _ end = _ => destruct c as [y|] eqn:E
      end.
      * inversion H; subst y.
        apply IH in E as (j1 & cs1 & Hij & Hm1 & Hl1 & E); [|done].
        destruct (i <? j1) eqn:Elt.
        -- apply IHf in E as (j2 & cs2 & Hjk & Hm2 & Hl2 & E); [|done].
           exists j2, cs2. rewrite <- (between_app s i j1 j2) by done.
           repeat split; [lia|by constructor|done|done].
        -- exists j1, cs1. rewrite <- (app_nil_r (between s i j1)).
           repeat split; [done|constructor; [done|constructor]|done|done].
      * exists i, cs. rewrite between_same.
        repeat split; [lia|constructor|done|done].
  - apply IH in H as (j & cs' & ? & ? & ? & H); [|done].
    exists j, (set_span g (i, j) cs').
    repeat split; [done|by constructor| |done].
    unfold set_span. etrans; [apply length_insert|done].
Qed.

Lemma chars_length s : length (Str.chars s) = String.length s.
Proof. induction s as [|c s IH]; simpl; [done|]. by f_equal. Qed.

Lemma substring_all s : substring 0 (String.length s) s = s.
Proof. induction s as [|c s IH]; simpl; [done|]. by f_equal. Qed.

(** A full match ends at the end of the subject: group 0 is the whole
    subject, the whole subject is in the language of the pattern, and there
    is one span for each group of the pattern. *)
Lemma fullmatch_whole pat s m :
  fullmatch pat s = Returns (Some m) ->
  subject m = s /\ end_pos m = String.length s /\ group0 m = s /\
  matches (expr pat) (Str.chars s) /\
  length (groups m) = ngroups pat.
Proof.
  unfold fullmatch. intros H.
  destruct (negb (is_ascii s)); [discriminate|].
  destruct (run _ _ _ _ _) as [[j cs]|] eqn:E; [|discriminate].
  inversion H; subst m. clear H.
  apply (run_sound _ (ngroups pat)) in E as (j' & cs' & _ & Hm & Hl & E);
    [|by rewrite length_replicate].
  destruct (j' =? length (Str.chars s)) eqn:Ej; [|discriminate].
  apply Nat.eqb_eq in Ej. inversion E; subst j cs. subst j'.
  rewrite between_all in Hm. rewrite chars_length.
  unfold group0, groups, slice. simpl.
  rewrite Nat.sub_0_r, substring_all, length_map.
  repeat split; done.
Qed.

End ReFacts.

(** ** Templates *)

Section FormatFacts.

Import Format.

Lemma append_assoc (a b c : string) : (a +:+ b) +:+ c = a +:+ (b +:+ c).
Proof.
  induction a as [|x a IH]; [reflexivity|].
  change (String x ((a +:+ b) +:+ c) = String x (a +:+ (b +:+ c))).
  by f_equal.
Qed.

Lemma append_empty_r (a : string) : a +:+ "" = a.
Proof.
  induction a as [|x a IH]; [reflexivity|].
  change (String x (a +:+ "") = String x a). by f_equal.
Qed.

Lemma digit_not_brace c :
  is_digit c = true -> Ascii.eqb c "}" = false /\ Ascii.eqb c "{" = false /\
                       is_compound c = false.
Proof.
  unfold is_digit. intros H. apply andb_true_iff in H as [H1 H2].
  apply Nat.leb_le in H1, H2.
  assert (Hc : c = ascii_of_nat (nat_of_ascii c)) by (by rewrite ascii_nat_embedding).
  change (nat_of_ascii "0") with 48 in H1. change (nat_of_ascii "9") with 57 in H2.
  revert Hc. generalize (nat_of_ascii c) H1 H2. intros n Hn1 Hn2 ->.
  do 48 (destruct n as [|n]; [lia|]).
  do 10 (destruct n as [|n]; [vm_compute; repeat split; reflexivity|]).
  lia.
Qed.

Lemma scan_field_digits digits rest :
  forallb is_digit digits = true ->
  scan_field (digits ++ "}"%char :: rest) = Some (digits, rest).
Proof.
  induction digits as [|c ds IH]; intros H; simpl.
  - reflexivity.
  - simpl in H. apply andb_true_iff in H as [Hc Hds].
    destruct (digit_not_brace c Hc) as (-> & _ & _).
    by rewrite (IH Hds).
Qed.

Lemma digits_not_compound digits :
  forallb is_digit digits = true -> existsb is_compound digits = false.
Proof.
  induction digits as [|c ds IH]; intros H; [done|].
  simpl in H. apply andb_true_iff in H as [Hc Hds].
  cbn [existsb].
  destruct (digit_not_brace c Hc) as (_ & _ & ->). by apply IH.
Qed.

Lemma get_item_in_range args idx v :
  (idx < N.of_nat (length args))%N ->
  args !! N.to_nat idx = Some v -> get_item args idx = Returns v.
Proof.
  intros Hlt Hv. unfold get_item.
  apply N.ltb_lt in Hlt. by rewrite Hlt, Hv.
Qed.

(** A numbered field, when no field was numbered automatically before. *)
Lemma get_value_field digits args st v :
  digits <> [] -> forallb is_digit digits = true ->
  st <> Auto 0 -> (forall k, st <> Auto (S k)) ->
  (int_of digits < N.of_nat (length args))%N ->
  (int_of digits <= PY_SSIZE_T_MAX)%N ->
  args !! N.to_nat (int_of digits) = Some v ->
  get_value digits args st = Returns (v, Manual).
Proof.
  intros Hne Hd Hst0 Hst Hlt Hmax Hv. unfold get_value.
  rewrite (digits_not_compound _ Hd).
  destruct digits as [|c ds]; [done|]. rewrite Hd.
  replace (PY_SSIZE_T_MAX <? int_of (c :: ds))%N with false
    by (symmetry; by apply N.ltb_ge).
  destruct st as [|[|k]|]; [|done|by destruct (Hst k)|];
    by rewrite (get_item_in_range _ _ _ Hlt Hv).
Qed.

Lemma format_loop_field fuel digits rest args st acc v :
  digits <> [] -> forallb is_digit digits = true ->
  st = Init \/ st = Manual ->
  (int_of digits < N.of_nat (length args))%N ->
  (int_of digits <= PY_SSIZE_T_MAX)%N ->
  args !! N.to_nat (int_of digits) = Some v ->
  format_loop (S fuel) ("{"%char :: digits ++ "}"%char :: rest) args st acc =
    format_loop fuel rest args Manual (acc +:+ render v).
Proof.
  intros Hne Hd Hst Hlt Hmax Hv.
  assert (Hscan := scan_field_digits digits rest Hd).
  assert (Hget : get_value digits args st = Returns (v, Manual)).
  { apply get_value_field; [done|done|destruct Hst; congruence..|done|done|done]. }
  destruct digits as [|c ds]; [done|].
  assert (Hc : Ascii.eqb c "{" = false).
  { simpl in Hd. apply andb_true_iff in Hd as [Hc _].
    by destruct (digit_not_brace c Hc) as (_ & -> & _). }
  cbn [format_loop app]. rewrite Ascii.eqb_refl, Hc.
  change (c :: ds ++ "}"%char :: rest) with ((c :: ds) ++ "}"%char :: rest).
  by rewrite Hscan, Hget.
Qed.

Lemma format_loop_pieces args items : forall fuel st acc,
  Forall (piece_ok (length args)) items ->
  length (flat_map show_piece items) < fuel ->
  st = Init \/ st = Manual ->
  format_loop fuel (flat_map show_piece items) args st acc =
    Returns (acc +:+ substitute args items).
Proof.
  induction items as [|it items IH]; intros fuel st acc Hok Hfuel Hst.
  - destruct fuel; [simpl in Hfuel; lia|]. simpl. by rewrite append_empty_r.
  - apply Forall_cons in Hok as [Hit Hok].
    cbn [flat_map] in *. rewrite length_app in Hfuel.
    destruct it as [c| | |digits]; cbn [show_piece app] in *;
      cbn [piece_ok] in Hit.
    + destruct fuel as [|fuel]; [simpl in Hfuel; lia|].
      destruct Hit as [Ho Hc].
      apply Ascii.eqb_neq in Ho, Hc. cbn [format_loop]. rewrite Ho, Hc.
      rewrite IH; [|done|simpl in Hfuel; lia|done].
      cbn [substitute subst_piece]. by rewrite append_assoc.
    + destruct fuel as [|fuel]; [simpl in Hfuel; lia|].
      cbn [format_loop]. rewrite !Ascii.eqb_refl.
      rewrite IH; [|done|simpl in Hfuel; lia|done].
      cbn [substitute subst_piece]. by rewrite append_assoc.
    + destruct fuel as [|fuel]; [simpl in Hfuel; lia|].
      cbn [format_loop].
      change (Ascii.eqb "}" "{") with false. cbn iota. rewrite !Ascii.eqb_refl.
      rewrite IH; [|done|simpl in Hfuel; lia|done].
      cbn [substitute subst_piece]. by rewrite append_assoc.
    + destruct fuel as [|fuel]; [simpl in Hfuel; lia|].
      destruct Hit as (Hne & Hd & Hlt & Hmax).
      assert (Hlt' : N.to_nat (int_of digits) < length args) by lia.
      destruct (lookup_lt_is_Some_2 args _ Hlt') as [v Hv].
      replace ((digits ++ ["}"%char]) ++ flat_map show_piece items)
        with (digits ++ "}"%char :: flat_map show_piece items)
        by (by rewrite <- app_assoc).
      rewrite (format_loop_field fuel digits _ args st acc v Hne Hd Hst Hlt Hmax Hv).
      rewrite IH; [|done| |by right].
      * cbn [substitute subst_piece]. rewrite Hv. by rewrite append_assoc.
      * simpl in Hfuel. rewrite !length_app in Hfuel. simpl in Hfuel. lia.
Qed.

(** A template of text and in-range numbered fields formats to its text with
    every field replaced by the argument it numbers. *)
Lemma format_pieces args items :
  Forall (piece_ok (length args)) items ->
  format (show items) args = Returns (substitute args items).
Proof.
  intros Hok. unfold format, show, Str.chars, Str.of_chars.
  rewrite list_ascii_of_string_of_list_ascii.
  rewrite (format_loop_pieces args items _ Init ""); [done|done| |by left].
  rewrite <- chars_length. unfold Str.chars.
  rewrite list_ascii_of_string_of_list_ascii. lia.
Qed.

(** The models of [re] and [str.format] are an engine that has what the
    properties of the rules need. *)
Lemma fragment_lawful : lawful fragment_engine.
Proof.
  split.
  - intros pat s m Hm. by destruct (fullmatch_whole pat s m Hm) as (_ & _ & ? & _).
  - intros items args Hok. by apply format_pieces.
Qed.

End FormatFacts.

(** ** The regex rules *)

Section RegexRules.

Context {World : Type} {E : Engine}.

Lemma re_move_unfold (regex : Regex) (target : string) (p : PurePath)
    (w : World) :
  re_move regex target p w =
  match to_pattern regex with
  | Raises e => (Raises e, w)
  | Returns pat =>
      match pattern_fullmatch pat (Path.str p) with
      | Raises e => (Raises e, w)
      | Returns None => (Returns None, w)
      | Returns (Some m) =>
          match str_format target (format_groups m) with
          | Raises e => (Raises e, w)
          | Returns s => (Returns (Some (Path.parse s)), w)
          end
      end
  end.
Proof.
  unfold re_move, bind, pure, ret.
  destruct (to_pattern regex) as [pat|e]; [|reflexivity].
  destruct (pattern_fullmatch pat (Path.str p)) as [[m|]|e]; [|reflexivity..].
  destruct (str_format target (format_groups m)); reflexivity.
Qed.

Lemma re_rename_unfold (regex : Regex) (target : string) (p : PurePath)
    (w : World) :
  re_rename regex target p w =
  match to_pattern regex with
  | Raises e => (Raises e, w)
  | Returns pat =>
      match pattern_fullmatch pat (Path.name p) with
      | Raises e => (Raises e, w)
      | Returns None => (Returns None, w)
      | Returns (Some m) =>
          match str_format target (format_groups m) with
          | Raises e => (Raises e, w)
          | Returns s =>
              match Path.with_name p s with
              | Raises e => (Raises e, w)
              | Returns q => (Returns (Some q), w)
              end
          end
      end
  end.
Proof.
  unfold re_rename, bind, pure, ret.
  destruct (to_pattern regex) as [pat|e]; [|reflexivity].
  destruct (pattern_fullmatch pat (Path.name p)) as [[m|]|e]; [|reflexivity..].
  destruct (str_format target (format_groups m)) as [s|e]; [|reflexivity].
  destruct (Path.with_name p s); reflexivity.
Qed.

(** C4, as the code has it, for every regex, template and path and for
    every engine in which a full match spans the subject and numbered
    fields are replaced by their arguments.  [re_move(regex, target)]
    compiles the regex when it is applied: a regex that does not compile
    makes the application raise.  Otherwise the pattern is matched against
    the whole string form of the path.  Without a full match the rule
    rejects.  With a full match, group 0 is the string form of the path, and
    the template is formatted with group 0 followed by the groups of the
    pattern: when formatting fails the application raises; otherwise the
    result is the path parsed from the formatted text, and when the template
    is text and fields [{k}] with [k] at most the number of groups, the
    formatted text is the template with every [{k}] replaced by group [k].
    Run with the models of [re] and [str.format]: the regex of the
    specification (a group of digits, an underscore, a group of any
    characters) with the template [{2}/{1}] maps [42_report.pdf] to
    [report.pdf/42] and rejects [x42_report.pdf], of which only a part
    matches; and whenever the rule accepts, the whole string form of the path
    is in the language of the pattern. *)
Theorem re_move_spec (regex : Regex) (target : string) (p : PurePath)
    (w : World) :
  lawful E ->
  (forall e, to_pattern regex = Raises e ->
             re_move regex target p w = (Raises e, w)) /\
  (forall pat, to_pattern regex = Returns pat ->
     (forall e, pattern_fullmatch pat (Path.str p) = Raises e ->
                re_move regex target p w = (Raises e, w)) /\
     (pattern_fullmatch pat (Path.str p) = Returns None ->
      re_move regex target p w = (Returns None, w)) /\
     (forall m, pattern_fullmatch pat (Path.str p) = Returns (Some m) ->
        match_group0 m = Path.str p /\
        (forall e, str_format target (format_groups m) = Raises e ->
                   re_move regex target p w = (Raises e, w)) /\
        (forall s, str_format target (format_groups m) = Returns s ->
                   re_move regex target p w =
                     (Returns (Some (Path.parse s)), w)) /\
        (forall items,
            Forall (piece_ok (S (length (match_groups m)))) items ->
            target = show items ->
            re_move regex target p w =
              (Returns (Some (Path.parse
                 (substitute (Some (Path.str p) :: match_groups m) items))),
               w)))) /\
  re_move (E:=fragment_engine) (RegexStr "(\d+)_(.*)") "{2}/{1}"
      (Path.parse "42_report.pdf") w =
    (Returns (Some (Path.parse "report.pdf/42")), w) /\
  re_move (E:=fragment_engine) (RegexStr "(\d+)_(.*)") "{2}/{1}"
      (Path.parse "x42_report.pdf") w =
    (Returns None, w) /\
  (forall (regex' : Regex (E:=fragment_engine)) pat q w',
      to_pattern regex' = Returns pat ->
      re_move regex' target p w = (Returns (Some q), w') ->
      matches (Re.expr pat) (Str.chars (Path.str p))).
Proof.
  intros [Hg0 Hfmt].
  split; [|split; [|split; [|split]]].
  - intros e He. rewrite re_move_unfold, He. reflexivity.
  - intros pat Hpat. split; [|split].
    + intros e He. rewrite re_move_unfold, Hpat, He. reflexivity.
    + intros Hno. rewrite re_move_unfold, Hpat, Hno. reflexivity.
    + intros m Hm. assert (Hm0 := Hg0 _ _ _ Hm).
      split; [exact Hm0|split; [|split]].
      * intros e He. rewrite re_move_unfold, Hpat, Hm, He. reflexivity.
      * intros s Hs. rewrite re_move_unfold, Hpat, Hm, Hs. reflexivity.
      * intros items Hok ->.
        rewrite re_move_unfold, Hpat, Hm.
        rewrite Hfmt by (by unfold format_groups).
        unfold format_groups. rewrite Hm0. reflexivity.
  - reflexivity.
  - reflexivity.
  - intros regex' pat q w' Hpat H.
    unfold re_move, bind, pure, ret in H. rewrite Hpat in H.
    destruct (pattern_fullmatch pat (Path.str p)) as [[m|]|e] eqn:Em;
      [|discriminate..].
    by destruct (fullmatch_whole pat _ m Em) as (_ & _ & _ & ? & _).
Qed.

(** C5, as the code has it, for every engine.  A rejection is the returned
    value [None].  The regex is compiled and the template is formatted when
    the rule is applied, not when it is built.  Applying [re_move] leaves the
    world alone and raises exactly when compiling the regex raises, or
    matching raises, or the string form of the path matches in full and
    formatting the template with the groups raises.  Applying [re_rename]
    raises exactly when compiling the regex raises, or matching raises, or
    the name of the path matches in full and either formatting the template
    raises or [with_name] refuses the formatted name. *)
Theorem regex_rules_raise_when_applied (regex : Regex) (target : string)
    (p : PurePath) (w : World) :
  (exists o, re_move regex target p w = (o, w) /\
     forall e, o = Raises e <->
       (to_pattern regex = Raises e \/
        exists pat,
          to_pattern regex = Returns pat /\
          (pattern_fullmatch pat (Path.str p) = Raises e \/
           exists m,
             pattern_fullmatch pat (Path.str p) = Returns (Some m) /\
             str_format target (format_groups m) = Raises e))) /\
  (exists o, re_rename regex target p w = (o, w) /\
     forall e, o = Raises e <->
       (to_pattern regex = Raises e \/
        exists pat,
          to_pattern regex = Returns pat /\
          (pattern_fullmatch pat (Path.name p) = Raises e \/
           exists m,
             pattern_fullmatch pat (Path.name p) = Returns (Some m) /\
             (str_format target (format_groups m) = Raises e \/
              exists s, str_format target (format_groups m) = Returns s /\
                        Path.with_name p s = Raises e)))) /\
  (forall pat, to_pattern regex = Returns pat ->
     pattern_fullmatch pat (Path.str p) = Returns None ->
     re_move regex target p w = (Returns None, w)) /\
  (forall pat, to_pattern regex = Returns pat ->
     pattern_fullmatch pat (Path.name p) = Returns None ->
     re_rename regex target p w = (Returns None, w)).
Proof.
  split; [|split; [|split]].
  - rewrite re_move_unfold.
    destruct (to_pattern regex) as [pat|e0] eqn:Ep.
    + destruct (pattern_fullmatch pat (Path.str p)) as [[m|]|e0] eqn:Em.
      * destruct (str_format target (format_groups m)) as [s|e0] eqn:Ef.
        -- eexists; split; [reflexivity|]. intros e. split; [discriminate|].
           intros [H|(pat' & Hp & [Hm'|(m' & Hm' & Hf)])];
             [discriminate|inversion Hp; subst pat'; congruence|].
           inversion Hp; subst pat'. rewrite Em in Hm'. inversion Hm'; subst m'.
           congruence.
        -- eexists; split; [reflexivity|]. intros e. split.
           ++ intros H. inversion H; subst e0. right. exists pat.
              split; [done|]. right. by exists m.
           ++ intros [H|(pat' & Hp & [Hm'|(m' & Hm' & Hf)])];
                [discriminate|inversion Hp; subst pat'; congruence|].
              inversion Hp; subst pat'. rewrite Em in Hm'.
              inversion Hm'; subst m'. congruence.
      * eexists; split; [reflexivity|]. intros e. split; [discriminate|].
        intros [H|(pat' & Hp & [Hm'|(m' & Hm' & Hf)])];
          [discriminate|inversion Hp; subst pat'; congruence..].
      * eexists; split; [reflexivity|]. intros e. split.
        -- intros H. inversion H; subst e0. right. exists pat.
           split; [done|]. by left.
        -- intros [H|(pat' & Hp & [Hm'|(m' & Hm' & Hf)])];
             [discriminate|inversion Hp; subst pat'; congruence..].
    + eexists; split; [reflexivity|]. intros e. split.
      * intros H. inversion H. by left.
      * intros [H|(pat' & Hp & _)]; congruence.
  - rewrite re_rename_unfold.
    destruct (to_pattern regex) as [pat|e0] eqn:Ep.
    + destruct (pattern_fullmatch pat (Path.name p)) as [[m|]|e0] eqn:Em.
      * destruct (str_format target (format_groups m)) as [s|e0] eqn:Ef.
        -- destruct (Path.with_name p s) as [q|e0] eqn:Ew.
           ++ eexists; split; [reflexivity|]. intros e. split; [discriminate|].
              intros [H|(pat' & Hp &
                         [Hm'|(m' & Hm' & [Hf|(s' & Hf & Hw)])])];
                [discriminate|inversion Hp; subst pat'; congruence| |].
              ** inversion Hp; subst pat'. rewrite Em in Hm'.
                 inversion Hm'; subst m'. congruence.
              ** inversion Hp; subst pat'. rewrite Em in Hm'.
                 inversion Hm'; subst m'. rewrite Ef in Hf.
                 inversion Hf; subst s'. congruence.
           ++ eexists; split; [reflexivity|]. intros e. split.
              ** intros H. inversion H; subst e0. right. exists pat.
                 split; [done|]. right. exists m. split; [done|].
                 right. by exists s.
              ** intros [H|(pat' & Hp &
                            [Hm'|(m' & Hm' & [Hf|(s' & Hf & Hw)])])];
                   [discriminate|inversion Hp; subst pat'; congruence| |].
                 --- inversion Hp; subst pat'. rewrite Em in Hm'.
                     inversion Hm'; subst m'. congruence.
                 --- inversion Hp; subst pat'. rewrite Em in Hm'.
                     inversion Hm'; subst m'. rewrite Ef in Hf.
                     inversion Hf; subst s'. congruence.
        -- eexists; split; [reflexivity|]. intros e. split.
           ++ intros H. inversion H; subst e0. right. exists pat.
              split; [done|]. right. exists m. split; [done|]. by left.
           ++ intros [H|(pat' & Hp &
                         [Hm'|(m' & Hm' & [Hf|(s' & Hf & Hw)])])];
                [discriminate|inversion Hp; subst pat'; congruence| |].
              ** inversion Hp; subst pat'. rewrite Em in Hm'.
                 inversion Hm'; subst m'. congruence.
              ** inversion Hp; subst pat'. rewrite Em in Hm'.
                 inversion Hm'; subst m'. congruence.
      * eexists; split; [reflexivity|]. intros e. split; [discriminate|].
        intros [H|(pat' & Hp & [Hm'|(m' & Hm' & _)])];
          [discriminate|inversion Hp; subst pat'; congruence..].
      * eexists; split; [reflexivity|]. intros e. split.
        -- intros H. inversion H; subst e0. right. exists pat.
           split; [done|]. by left.
        -- intros [H|(pat' & Hp & [Hm'|(m' & Hm' & _)])];
             [discriminate|inversion Hp; subst pat'; congruence..].
    + eexists; split; [reflexivity|]. intros e. split.
      * intros H. inversion H. by left.
      * intros [H|(pat' & Hp & _)]; congruence.
  - intros pat Hp Hm. rewrite re_move_unfold, Hp, Hm. reflexivity.
  - intros pat Hp Hm. rewrite re_rename_unfold, Hp, Hm. reflexivity.
Qed.

End RegexRules.

(** C4, witness: the models of [re] and [str.format] are such an engine, and
    the rule of the specification takes [42_report.pdf] to the template with
    its two fields replaced by the groups. *)
Lemma re_move_spec_witness :
  lawful fragment_engine /\
  re_move (RegexStr "(\d+)_(.*)") "{2}/{1}" (Path.parse "42_report.pdf") tt =
    (Returns (Some (Path.parse
       (substitute [Some "42_report.pdf"; Some "42"; Some "report.pdf"]
          [Field ["2"%char]; Text "/"; Field ["1"%char]]))), tt).
Proof.
  split; [exact fragment_lawful|].
  destruct (re_move_spec (RegexStr "(\d+)_(.*)") "{2}/{1}"
              (Path.parse "42_report.pdf") tt fragment_lawful) as (_ & H & _).
  destruct (H _ eq_refl) as (_ & _ & Hm).
  destruct (Hm _ eq_refl) as (_ & _ & _ & Hitems).
  apply (Hitems [Field ["2"%char]; Text "/"; Field ["1"%char]]);
    [|reflexivity].
  repeat constructor; try discriminate; vm_compute; try reflexivity;
    discriminate.
Defined.

(** C4, counterexample.  The pattern [a] matches the path [a] in full, and
    the template [{1}] names a group that the pattern does not have: the
    application returns no path, it raises [IndexError]. *)
Lemma re_move_group_out_of_range :
  (exists pat m,
      to_pattern (RegexStr "a") = Returns pat /\
      pattern_fullmatch pat (Path.str (Path.parse "a")) = Returns (Some m)) /\
  re_move (World:=unit) (RegexStr "a") "{1}" (Path.parse "a") tt =
    (Raises (IndexError
       "Replacement index 1 out of range for positional args tuple"), tt).
Proof. split; [eexists _, _; split; reflexivity|reflexivity]. Qed.

(** C5, counterexample.  A rule is built by [re_move] from the malformed
    regex that is a single opening parenthesis; the failure comes when the
    rule is applied to a path. *)
Lemma re_move_malformed_regex_raises_when_applied :
  re_move (World:=unit) (RegexStr "(") "{0}" (Path.parse "a") tt =
    (Raises (re_error "missing ), unterminated subpattern"), tt).
Proof. reflexivity. Qed.

(** ** Glob *)

Section GlobFacts.

Context {World : Type}.

Lemma zip_nil_r {A B} (xs : list A) : zip xs (@nil B) = [].
Proof. by destruct xs. Qed.

Lemma forallb_zip_rev {A B} (f : A * B -> bool) : forall ys xs,
  length ys <= length xs ->
  forallb f (zip (rev xs) (rev ys)) = true <->
  Forall2 (fun x y => f (x, y) = true) (drop (length xs - length ys) xs) ys.
Proof.
  induction ys as [|y ys IH] using rev_ind; intros xs Hlen.
  - simpl. rewrite zip_nil_r, Nat.sub_0_r, drop_all. simpl.
    split; intros _; [constructor|reflexivity].
  - destruct xs as [|x xs _] using rev_ind.
    { rewrite length_app in Hlen. simpl in Hlen. lia. }
    rewrite !length_app in Hlen. simpl in Hlen.
    rewrite !rev_app_distr. simpl. rewrite andb_true_iff, IH by lia.
    rewrite !length_app. simpl.
    replace (length xs + 1 - (length ys + 1)) with (length xs - length ys) by lia.
    rewrite drop_app_le by lia.
    split.
    + intros [Hf Hrest]. apply Forall2_app; [done|]. by constructor.
    + intros H. apply Forall2_app_inv in H as [H1 H2].
      * by inversion H2.
      * rewrite length_drop. lia.
Qed.

Lemma glob_unfold (pattern : string) (p : PurePath) (w : World) :
  glob pattern p w =
  match Path.match_ p pattern with
  | Returns true => (Returns (Some p), w)
  | Returns false => (Returns None, w)
  | Raises e => (Raises e, w)
  end.
Proof.
  unfold glob, predicate, bind, pure, ret.
  destruct (Path.match_ p pattern) as [[|]|e]; reflexivity.
Qed.

Lemma match_accepts (pattern : string) (p : PurePath) :
  Path.parts (Path.parse pattern) <> [] ->
  exists b, Path.match_ p pattern = Returns b /\
            (b = true <-> glob_accepts pattern p).
Proof.
  unfold Path.match_, glob_accepts.
  set (pat := Path.parse pattern).
  destruct (String.eqb (root pat) "") eqn:Er; cbn [negb andb].
  - assert (Hpp : Path.parts pat = names pat)
      by (unfold Path.parts; by rewrite Er).
    rewrite !Hpp. intros Hne.
    destruct (names pat) as [|x xs] eqn:En; [done|].
    rewrite <- En. clear Hne.
    destruct (length (Path.parts p) <? length (names pat)) eqn:El.
    + exists false. split; [done|]. apply Nat.ltb_lt in El.
      split; [done|]. intros [Hle _]. lia.
    + apply Nat.ltb_ge in El. eexists. split; [reflexivity|].
      rewrite (forallb_zip_rev (fun '(part, pt) => Fnmatch.fnmatchcase part pt))
        by done.
      split; [by split|by intros [_ H]].
  - assert (Hpp : Path.parts pat = root pat :: names pat)
      by (unfold Path.parts; by rewrite Er).
    rewrite !Hpp. intros _. apply String.eqb_neq in Er.
    destruct (String.eqb (root pat) (root p)) eqn:Erp; cbn [negb].
    + apply String.eqb_eq in Erp.
      assert (Hparts : Path.parts p = root p :: names p).
      { unfold Path.parts. rewrite <- Erp.
        by destruct (String.eqb (root pat) "") eqn:E;
          [apply String.eqb_eq in E|]. }
      rewrite Hparts. cbn [length Nat.eqb].
      destruct (length (names pat) =? length (names p)) eqn:El; cbn [negb].
      * apply Nat.eqb_eq in El. eexists. split; [reflexivity|].
        rewrite (forallb_zip_rev (fun '(part, pt) => Fnmatch.fnmatchcase part pt))
          by (simpl; lia).
        cbn [length]. rewrite El.
        replace (S (length (names p)) - length (names p)) with 1 by lia.
        cbn [drop]. rewrite drop_0. split; [by split|by intros [_ H]].
      * exists false. split; [done|]. apply Nat.eqb_neq in El.
        split; [done|]. intros [_ H]. apply Forall2_length in H. lia.
    + exists false. split; [done|]. apply String.eqb_neq in Erp.
      split; [done|]. by intros [H _].
Qed.

Lemma tokmatch_wild ts : forall s, Fnmatch.tokmatch ts s = true <-> wild ts s.
Proof.
  induction ts as [|t ts IH]; intros s.
  - destruct s; simpl; split; intros H; [constructor|done|done|inversion H].
  - destruct t as [| |negated items|a]; cbn [Fnmatch.tokmatch].
    + split.
      * induction s as [|c s IHs]; intros H.
        -- apply orb_true_iff in H as [H|H]; [|done].
           apply (wild_star ts [] []). by apply IH.
        -- apply orb_true_iff in H as [H|H].
           ++ apply (wild_star ts [] (c :: s)). by apply IH.
           ++ specialize (IHs H). inversion IHs as [|ts' u v Hv| | |]; subst.
              by apply (wild_star ts (c :: u) v).
      * intros H. inversion H as [|ts' u v Hv| | |]; subst. clear H.
        apply IH in Hv. induction u as [|c u IHu]; simpl.
        -- destruct v; by rewrite Hv.
        -- rewrite IHu. apply orb_true_r.
    + destruct s as [|c s]; split; intros H;
        [done|inversion H|constructor; by apply IH|].
      inversion H; subst. by apply IH.
    + destruct s as [|c s]; split; intros H; [done|inversion H| |].
      * apply andb_true_iff in H as [Hc H]. constructor; [done|by apply IH].
      * inversion H; subst. apply andb_true_iff. split; [done|by apply IH].
    + destruct s as [|c s]; split; intros H; [done|inversion H| |].
      * apply andb_true_iff in H as [Hc H]. apply N.eqb_eq in Hc. subst c.
        constructor. by apply IH.
      * inversion H; subst. rewrite N.eqb_refl. by apply IH.
Qed.

(** C6, as the code has it.  [glob(pattern)] is [PurePath.match]: the
    pattern is parsed as a path.  A pattern with no part makes the
    application raise [ValueError].  Otherwise the rule accepts, and returns
    the path unchanged, exactly when the parts of the pattern match the parts
    of the path one by one, within each part with the wildcards of
    [fnmatch]: a pattern without a root against the last parts of the path, a
    pattern with a root against the whole path; else it rejects.  Within a
    part, [*] stands for any characters, [?] for one character and a class
    for one character of the class; so [*] matches every name, [?] matches
    the names of one character, and the component [**] matches what [*]
    matches: one part. *)
Theorem glob_is_path_match (pattern : string) (p : PurePath) (w : World) :
  (Path.parts (Path.parse pattern) = [] ->
   glob pattern p w = (Raises (ValueError "empty pattern"), w)) /\
  (Path.parts (Path.parse pattern) <> [] ->
   (glob_accepts pattern p -> glob pattern p w = (Returns (Some p), w)) /\
   (~ glob_accepts pattern p -> glob pattern p w = (Returns None, w))) /\
  (forall name, Fnmatch.fnmatchcase name "**" = Fnmatch.fnmatchcase name "*") /\
  (forall name pat,
      Fnmatch.fnmatchcase name pat = true <->
      wild (Fnmatch.translate pat) (Utf8.codepoints name)) /\
  (forall name, Fnmatch.fnmatchcase name "*" = true) /\
  (forall name,
      Fnmatch.fnmatchcase name "?" = true <->
      length (Utf8.codepoints name) = 1).
Proof.
  split; [|split; [|split; [|split; [|split]]]].
  - intros Hnil. rewrite glob_unfold. unfold Path.match_. by rewrite Hnil.
  - intros Hne. destruct (match_accepts pattern p Hne) as (b & Hb & Hiff).
    rewrite glob_unfold, Hb. split.
    + intros H. apply Hiff in H. by subst b.
    + intros H. destruct b; [|done]. exfalso. by apply H, Hiff.
  - reflexivity.
  - intros name pat. apply tokmatch_wild.
  - intros name. apply tokmatch_wild.
    change (Fnmatch.translate "*") with [Fnmatch.Star].
    rewrite <- (app_nil_r (Utf8.codepoints name)). constructor. constructor.
  - intros name. unfold Fnmatch.fnmatchcase.
    change (Fnmatch.translate "?") with [Fnmatch.Any].
    destruct (Utf8.codepoints name) as [|c [|c' l]]; simpl; split;
      intros H; done.
Qed.

End GlobFacts.

(** C6, counterexample.  By the shell-glob semantics with [**] the pattern
    [a/**/c] matches the path [a/x/y/c]; the rule rejects it. *)
Lemma glob_double_star_not_recursive :
  glob_spec "a/**/c" (Path.parse "a/x/y/c") = true /\
  glob (World:=unit) "a/**/c" (Path.parse "a/x/y/c") tt = (Returns None, tt).
Proof. split; reflexivity. Qed.

(** ** Runs on the sample data *)

(** C9, witness: the batch [a], [b], [c] under the rule that accepts [b]. *)
Lemma apply_transform_frame_witness :
  sublist [1] [0; 1; 2] /\
  (forall l, l ∉ [1] -> with_path shelf 1 (Path.parse "x/b") l = shelf l) /\
  (forall l,
      payload (with_path shelf 1 (Path.parse "x/b") l) = payload (shelf l)) /\
  (forall st2 : @Store nat,
      (forall l, path (st2 l) = path (shelf l)) ->
      exists st2',
        apply_transform only_b [0; 1; 2] (st2, tt) = (Returns [1], (st2', tt)) /\
        (forall l,
            path (st2' l) = path (with_path shelf 1 (Path.parse "x/b") l))).
Proof.
  exact (apply_transform_frame only_b [0; 1; 2] shelf tt [1]
           (with_path shelf 1 (Path.parse "x/b")) tt eq_refl).
Defined.

(** The same object twice in a batch: the first visit accepts it and
    rewrites its path, the second visit sees the new path and rejects it. *)
Example apply_transform_aliased :
  exists st',
    apply_transform a_to_b [0; 0] (shelf, tt) = (Returns [0], (st', tt)) /\
    path (st' 0) = Path.parse "b".
Proof. eexists. split; reflexivity. Qed.

(** The second rule accepts: the third one, which would raise, is not
    invoked, and the log holds the first two rules only. *)
Example attempt_stops_at_first_success :
  attempt [logged "r1" (Returns None);
           logged "r2" (Returns (Some (Path.parse "out")));
           logged "r3" (Raises (Exception "boom"))] (Path.parse "in") [] =
    (Returns (Some (Path.parse "out")), ["r1"; "r2"]).
Proof. reflexivity. Qed.

(** A pipeline feeds each rule the output of the one before it. *)
Example do_pipeline :
  do [move_dir (PathStr "raw") (PathStr "sorted");
      rename "a.txt" "b.txt"] (Path.parse "raw/2023/a.txt") tt =
    (Returns (Some (Path.parse "sorted/2023/b.txt")), tt).
Proof. reflexivity. Qed.

(** [re_rename] applied to a path without a name raises. *)
Example re_rename_empty_name :
  re_rename (RegexStr ".*") "x" (Path.parse "/") tt =
    (Raises (ValueError "has an empty name"), tt).
Proof. reflexivity. Qed.

(** An empty glob pattern raises when the rule is applied. *)
Example glob_empty_pattern :
  glob "" (Path.parse "a") tt = (Raises (ValueError "empty pattern"), tt).
Proof. reflexivity. Qed.

(** A group that took no part in the match is formatted as the text None. *)
Example re_move_unmatched_group :
  re_move (RegexStr "(a)?b") "x{1}" (Path.parse "b") tt =
    (Returns (Some (Path.parse "xNone")), tt).
Proof. reflexivity. Qed.

(** A question mark stands for one character, of however many bytes. *)
Example glob_one_character :
  glob "?" (Path.parse one_character) tt =
    (Returns (Some (Path.parse one_character)), tt) /\
  glob "??" (Path.parse one_character) tt = (Returns None, tt) /\
  glob "???" (Path.parse one_character) tt = (Returns None, tt).
Proof. repeat split; reflexivity. Qed.

(** Outside their fragments the models of [re] and [str.format] do not
    answer: a bracketed class, a subject outside ASCII, a field with a format
    specification. *)
Example outside_the_fragment :
  Re.compile "[0-9]+" = Raises (NotModelled "syntax") /\
  (exists pat, Re.compile "..." = Returns pat /\
     Re.fullmatch pat one_character =
       Raises (NotModelled "subject outside ASCII")) /\
  Format.format "blatt_{1:0>2}.pdf" [Some "a"; Some "7"] =
    Raises (NotModelled "replacement field").
Proof. repeat split. eexists. split; reflexivity. Qed.

(** * Further properties *)

(** ** Composition of the combinators *)

Section CombinatorAlgebra.

Context {World : Type}.

Implicit Types (r : @Transform World) (p q : PurePath) (w : World)
  (xs ys rules : list (@Transform World)).

Lemma do_cons r rules p w :
  do (r :: rules) p w =
  match r p w with
  | (Returns (Some p1), w1) => do rules p1 w1
  | (Returns None, w1) => (Returns None, w1)
  | (Raises e, w1) => (Raises e, w1)
  end.
Proof.
  unfold do; simpl. unfold bind, ret.
  destruct (r p w) as [[[x|]|e] w1]; reflexivity.
Qed.

Lemma do_app_eq xs : forall ys p w,
  do (xs ++ ys) p w =
  match do xs p w with
  | (Returns (Some q), w1) => do ys q w1
  | (Returns None, w1) => (Returns None, w1)
  | (Raises e, w1) => (Raises e, w1)
  end.
Proof.
  induction xs as [|r xs IH]; intros ys p w.
  - reflexivity.
  - cbn [app]. rewrite !do_cons.
    destruct (r p w) as [[[p1|]|e] w1]; [apply IH|reflexivity..].
Qed.

Lemma attempt_app_eq xs : forall ys p w,
  attempt (xs ++ ys) p w =
  match attempt xs p w with
  | (Returns (Some q), w1) => (Returns (Some q), w1)
  | (Returns None, w1) => attempt ys p w1
  | (Raises e, w1) => (Raises e, w1)
  end.
Proof.
  induction xs as [|r xs IH]; intros ys p w.
  - reflexivity.
  - cbn [app]. rewrite !attempt_cons.
    destruct (r p w) as [[[p1|]|e] w1]; [reflexivity|apply IH|reflexivity].
Qed.

(** X1. A pipeline over a concatenation runs the first part and feeds its
    output to the second part; a rejection or an exception of the first part
    ends the run.  Hence a pipeline of two pipelines is the pipeline of all
    their rules. *)
Theorem do_app xs ys p w :
  do (xs ++ ys) p w =
    match do xs p w with
    | (Returns (Some q), w1) => do ys q w1
    | (Returns None, w1) => (Returns None, w1)
    | (Raises e, w1) => (Raises e, w1)
    end /\
  do [do xs; do ys] p w = do (xs ++ ys) p w.
Proof.
  split; [apply do_app_eq|].
  rewrite do_app_eq, do_cons.
  destruct (do xs p w) as [[[q|]|e] w1]; [|reflexivity..].
  rewrite do_cons.
  destruct (do ys q w1) as [[[q'|]|e] w2]; reflexivity.
Qed.

(** X2. An alternation over a concatenation tries the first part and, only
    when it rejects, the second part on the same path; hence an alternation
    of two alternations is the alternation of all their rules. *)
Theorem attempt_app xs ys p w :
  attempt (xs ++ ys) p w =
    match attempt xs p w with
    | (Returns (Some q), w1) => (Returns (Some q), w1)
    | (Returns None, w1) => attempt ys p w1
    | (Raises e, w1) => (Raises e, w1)
    end /\
  attempt [attempt xs; attempt ys] p w = attempt (xs ++ ys) p w.
Proof.
  split; [apply attempt_app_eq|].
  rewrite attempt_app_eq, attempt_cons.
  destruct (attempt xs p w) as [[[q|]|e] w1]; [reflexivity| |reflexivity].
  rewrite attempt_cons.
  destruct (attempt ys p w1) as [[[q'|]|e] w2]; reflexivity.
Qed.

Lemma do_accepts_iff rules : forall p w q w',
  do rules p w = (Returns (Some q), w') <-> pipeline p rules w q w'.
Proof.
  induction rules as [|r rules IH]; intros p w q w'.
  - split.
    + intros H. inversion H; subst. constructor.
    + intros H. inversion H; subst. reflexivity.
  - rewrite do_cons. split.
    + intros H. destruct (r p w) as [[[p1|]|e] w1] eqn:E; try discriminate.
      econstructor; [exact E|]. apply IH, H.
    + intros H. inversion H as [|? ? ? ? p1 w1 ? ? Hr Hrest]; subst.
      rewrite Hr. apply IH, Hrest.
Qed.

Lemma do_rejects_at pre : forall r post p q w w1 w2,
  pipeline p pre w q w1 ->
  r q w1 = (Returns None, w2) ->
  do (pre ++ r :: post) p w = (Returns None, w2).
Proof.
  intros r post p q w w1 w2 Hpre Hr.
  rewrite do_app_eq. apply do_accepts_iff in Hpre. rewrite Hpre.
  rewrite do_cons, Hr. reflexivity.
Qed.

(** X3. [do] accepts exactly when every rule accepts the output of the rule
    before it, and then returns the last output.  When the rules before [r]
    accept and [r] rejects, [do] rejects and the world is the one [r] left,
    whatever rules follow [r]: none of them is invoked.  And a rejection of
    [do] always comes from one of its rules. *)
Theorem do_all_succeed_or_reject rules p w :
  (forall q w', do rules p w = (Returns (Some q), w') <->
                pipeline p rules w q w') /\
  (forall pre r q w1 w2,
      pipeline p pre w q w1 ->
      r q w1 = (Returns None, w2) ->
      forall later, do (pre ++ r :: later) p w = (Returns None, w2)) /\
  (forall w2,
      do rules p w = (Returns None, w2) ->
      exists pre r post q w1,
        rules = pre ++ r :: post /\ pipeline p pre w q w1 /\
        r q w1 = (Returns None, w2)).
Proof.
  split; [|split].
  - intros q w'. apply do_accepts_iff.
  - intros pre r q w1 w2 Hpre Hr later. eapply do_rejects_at; eauto.
  - revert p w. induction rules as [|r rules IH]; intros p w w2 H.
    + discriminate.
    + rewrite do_cons in H.
      destruct (r p w) as [[[p1|]|e] w1] eqn:E; try discriminate.
      * destruct (IH _ _ _ H) as (pre & r' & post & q & w1' & -> & Hpre & Hr').
        exists (r :: pre), r', post, q, w1'.
        split; [reflexivity|split; [|exact Hr']]. econstructor; eauto.
      * inversion H; subst w1.
        exists [], r, rules, p, w. split; [reflexivity|split; [constructor|exact E]].
Qed.

(** X4. [keep] is the unit of the pipeline on both sides.  In an
    alternation, [keep] in front answers every path unchanged and hides the
    rules behind it; [keep] at the end turns a rejection into the path
    itself. *)
Theorem keep_units rules p w :
  do (keep :: rules) p w = do rules p w /\
  do (rules ++ [keep]) p w = do rules p w /\
  attempt (keep :: rules) p w = (Returns (Some p), w) /\
  attempt (rules ++ [keep]) p w =
    match attempt rules p w with
    | (Returns None, w1) => (Returns (Some p), w1)
    | other => other
    end.
Proof.
  split; [|split; [|split]].
  - rewrite do_cons. reflexivity.
  - rewrite do_app_eq.
    destruct (do rules p w) as [[[q|]|e] w1]; reflexivity.
  - rewrite attempt_cons. reflexivity.
  - rewrite attempt_app_eq.
    destruct (attempt rules p w) as [[[q|]|e] w1]; reflexivity.
Qed.

(** X5. [optionally] is idempotent, and it makes a rule that does not raise
    into one that accepts every path. *)
Theorem optionally_idempotent r p w :
  optionally (optionally r) p w = optionally r p w /\
  (never_raises r -> always_accepts (optionally r)).
Proof.
  assert (E : forall r' p' w', optionally r' p' w' =
    match r' p' w' with
    | (Returns (Some q), w1) => (Returns (Some q), w1)
    | (Returns None, w1) => (Returns (Some p'), w1)
    | (Raises e, w1) => (Raises e, w1)
    end).
  { intros r' p' w'. unfold optionally. rewrite attempt_cons.
    destruct (r' p' w') as [[[x|]|e] w1]; reflexivity. }
  split.
  - rewrite (E (optionally r)), E.
    destruct (r p w) as [[[x|]|e] w1]; reflexivity.
  - intros Hnr p' w'. rewrite E.
    destruct (Hnr p' w') as (o & w1 & ->). destruct o as [x|]; eauto.
Qed.

End CombinatorAlgebra.

(** ** The batch applicator, further *)

Section BatchAlgebra.

Context {World Payload : Type}.

Implicit Types (t : @Transform World) (st : @Store Payload) (w : World)
  (l : loc) (ls res : list loc).

Lemma apply_transform_app_eq t xs : forall ys st w,
  apply_transform t (xs ++ ys) (st, w) =
  match apply_transform t xs (st, w) with
  | (Returns res1, (st1, w1)) =>
      match apply_transform t ys (st1, w1) with
      | (Returns res2, s2) => (Returns (res1 ++ res2), s2)
      | (Raises e, s2) => (Raises e, s2)
      end
  | (Raises e, s1) => (Raises e, s1)
  end.
Proof.
  induction xs as [|l xs IH]; intros ys st w.
  - cbn [app].
    change (apply_transform t [] (st, w)) with (@Returns (list loc) [], (st, w)).
    cbv beta iota.
    destruct (apply_transform t ys (st, w)) as [[res2|e] s2]; reflexivity.
  - cbn [app]. rewrite !apply_transform_cons.
    destruct (t (path (st l)) w) as [[[q|]|e] w1]; [|apply IH|reflexivity].
    rewrite IH.
    destruct (apply_transform t xs _) as [[res1|e] [st1 w2]]; [|reflexivity].
    destruct (apply_transform t ys _) as [[res2|e] s2]; reflexivity.
Qed.

(** X6. A batch that is a concatenation is processed part by part: the
    second part starts from the store and the world the first part left, and
    the results are concatenated; an exception in the first part ends the
    run. *)
Theorem apply_transform_app t xs ys st w :
  apply_transform t (xs ++ ys) (st, w) =
  match apply_transform t xs (st, w) with
  | (Returns res1, (st1, w1)) =>
      match apply_transform t ys (st1, w1) with
      | (Returns res2, s2) => (Returns (res1 ++ res2), s2)
      | (Raises e, s2) => (Raises e, s2)
      end
  | (Raises e, s1) => (Raises e, s1)
  end.
Proof. apply apply_transform_app_eq. Qed.

(** X7. No rollback.  When the rule raises at an item, the exception leaves
    [apply_transform] with the store as it is at that moment: the items
    accepted before it keep their new paths, and the items after it are not
    visited. *)
Theorem apply_transform_no_rollback t pre l st w res st1 w1 e w2 :
  apply_transform t pre (st, w) = (Returns res, (st1, w1)) ->
  t (path (st1 l)) w1 = (Raises e, w2) ->
  forall post,
    apply_transform t (pre ++ l :: post) (st, w) = (Raises e, (st1, w2)).
Proof.
  intros Hpre Hl post.
  rewrite apply_transform_app_eq, Hpre, apply_transform_cons, Hl.
  reflexivity.
Qed.

Lemma with_path_id st l l' : with_path st l (path (st l)) l' = st l'.
Proof.
  destruct (decide (l = l')) as [->|Hne].
  - rewrite with_path_same. by destruct (st l').
  - by rewrite with_path_other.
Qed.

(** X8. A filter changes no Transformable: when the rule returns what it
    accepts unchanged, as [keep], [predicate] and [glob] do, the store after
    [apply_transform] is the store before it, at every reference. *)
Theorem apply_transform_filter_keeps_store t ls st w res st' w' :
  is_filter t ->
  apply_transform t ls (st, w) = (Returns res, (st', w')) ->
  forall l, st' l = st l.
Proof.
  intros Hf H. apply apply_transform_returns_iff in H.
  induction H as [| l0 ls st w q w1 res st' w' Hq _ IH
                  | l0 ls st w w1 res st' w' Hq _ IH]; intros l.
  - reflexivity.
  - rewrite IH. apply Hf in Hq. subst q. apply with_path_id.
  - apply IH.
Qed.

Lemma always_accepts_all t ls : always_accepts t -> forall st w,
  exists st' w', apply_transform t ls (st, w) = (Returns ls, (st', w')).
Proof.
  intros Ha. induction ls as [|l ls IH]; intros st w.
  - exists st, w. reflexivity.
  - rewrite apply_transform_cons.
    destruct (Ha (path (st l)) w) as (q & w1 & ->).
    destruct (IH (with_path st l q) w1) as (st' & w' & ->).
    eauto.
Qed.

(** X9. A rule that accepts every path drops nothing: the result is the
    whole batch, in order, duplicates included. *)
Theorem apply_transform_keeps_all t ls st w :
  always_accepts t ->
  exists st' w', apply_transform t ls (st, w) = (Returns ls, (st', w')).
Proof. intros Ha. by apply always_accepts_all. Qed.

End BatchAlgebra.

Section RuleKinds.

Context {World : Type}.

Lemma predicate_is_filter (pred : PurePath -> M World bool) :
  is_filter (predicate pred).
Proof.
  intros p w q w' H. unfold predicate, bind, ret in H.
  destruct (pred p w) as [[[|]|e] w1]; by inversion H.
Qed.

Lemma keep_always_accepts : always_accepts (@keep World).
Proof. intros p w. by exists p, w. Qed.

Lemma move_is_move_fun (source target : PathLike) (p : PurePath) (w : World) :
  move source target p w = (Returns (move_fun source target p), w).
Proof. unfold move, move_fun, ret. by destruct (Path.eqb _ _). Qed.

Lemma optionally_always_accepts (r : @Transform World) :
  never_raises r -> always_accepts (optionally r).
Proof.
  intros Hnr p w. unfold optionally. rewrite attempt_cons.
  destruct (Hnr p w) as (o & w1 & ->). destruct o as [x|]; [eauto|].
  exists p, w1. reflexivity.
Qed.

Lemma move_never_raises (source target : PathLike) :
  never_raises (@move World source target).
Proof. intros p w. rewrite move_is_move_fun. eauto. Qed.

End RuleKinds.

Section TwoPasses.

Context {World Payload : Type}.

Implicit Types (t : @Transform World) (st : @Store Payload) (w : World)
  (l : loc) (ls res : list loc).

Lemma do_two_pure (f1 f2 : PurePath -> option PurePath) t1 t2 :
  (forall p w, t1 p w = (Returns (f1 p), w)) ->
  (forall p w, t2 p w = (Returns (f2 p), w)) ->
  forall p w, do [t1; t2] p w = (Returns (then_fun f1 f2 p), w).
Proof.
  intros H1 H2 p w. unfold do, then_fun; simpl. unfold bind, ret.
  rewrite H1. destruct (f1 p) as [q|]; [|reflexivity].
  rewrite H2. by destruct (f2 q).
Qed.

(** X10. Two passes against one pipeline.  For rules that are pure functions
    and a batch of distinct objects, applying [t1] to the batch and then [t2]
    to the survivors gives the same survivors, with the same final paths, as
    applying [do(t1, t2)] once.  The stores differ on the other objects only:
    the pipeline leaves an object that it drops untouched; in the two passes
    an object dropped by the first pass is untouched, while an object dropped
    by the second pass keeps the path that the first pass gave it. *)
Theorem apply_transform_twice (f1 f2 : PurePath -> option PurePath)
    t1 t2 ls st w :
  (forall p w, t1 p w = (Returns (f1 p), w)) ->
  (forall p w, t2 p w = (Returns (f2 p), w)) ->
  NoDup ls ->
  exists res1 st1 res st2 st',
    apply_transform t1 ls (st, w) = (Returns res1, (st1, w)) /\
    apply_transform t2 res1 (st1, w) = (Returns res, (st2, w)) /\
    apply_transform (do [t1; t2]) ls (st, w) = (Returns res, (st', w)) /\
    (forall l, l ∈ res -> st2 l = st' l) /\
    (forall l, l ∉ res -> st' l = st l) /\
    (forall l, l ∉ res1 -> st1 l = st l /\ st2 l = st l) /\
    (forall l, l ∈ res1 -> l ∉ res ->
       exists q, f1 (path (st l)) = Some q /\ f2 q = None /\
                 st1 l = mkTransformable q (payload (st l)) /\
                 st2 l = st1 l).
Proof.
  intros H1 H2 Hnd.
  destruct (batch_spec_pure f1 t1 ls H1 Hnd st w) as (st1 & Hrun1 & Hst1).
  set (res1 := filter (fun l => is_Some (f1 (path (st l)))) ls) in *.
  assert (Hnd1 : NoDup res1) by (by apply NoDup_filter).
  destruct (batch_spec_pure f2 t2 res1 H2 Hnd1 st1 w) as (st2 & Hrun2 & Hst2).
  destruct (batch_spec_pure (then_fun f1 f2) (do [t1; t2]) ls
              (do_two_pure f1 f2 t1 t2 H1 H2) Hnd st w) as (st' & Hrun & Hst').
  assert (Hres : filter (fun l => is_Some (f2 (path (st1 l)))) res1 =
                 filter (fun l => is_Some (then_fun f1 f2 (path (st l)))) ls).
  { unfold res1. rewrite list_filter_filter. apply filter_ext_elem.
    intros x Hx. rewrite Hst1. unfold then_fun.
    destruct (f1 (path (st x))) as [q|] eqn:E1.
    - rewrite decide_True by done. simpl. split; [by intros [? _]|].
      intros ?. split; [done|eauto].
    - split; [intros [_ [? ?]]; discriminate|intros [? ?]; discriminate]. }
  rewrite Hres in Hrun2.
  assert (Hdrop1 : forall l, l ∉ res1 -> st1 l = st l).
  { intros l Hl. rewrite Hst1.
    destruct (f1 (path (st l))) as [q|] eqn:E1; [|done].
    destruct (decide (l ∈ ls)) as [Hin|]; [|done].
    exfalso. apply Hl, list_elem_of_filter. split; [|done]. rewrite E1. eauto. }
  exists res1, st1, (filter (fun l => is_Some (then_fun f1 f2 (path (st l)))) ls),
    st2, st'.
  split; [by apply apply_transform_returns_iff|].
  split; [by apply apply_transform_returns_iff|].
  split; [by apply apply_transform_returns_iff|].
  split; [|split; [|split]].
  - intros l Hl. apply list_elem_of_filter in Hl as [[q2 Hq2] Hin].
    rewrite Hst2, Hst', Hst1, Hq2. unfold then_fun in Hq2.
    destruct (f1 (path (st l))) as [q|] eqn:E1; [|discriminate].
    rewrite decide_True by done. simpl. rewrite Hq2.
    rewrite !decide_True; [done|done|].
    apply list_elem_of_filter. split; [|done]. rewrite E1. eauto.
  - intros l Hl. rewrite Hst'.
    destruct (then_fun f1 f2 (path (st l))) as [q|] eqn:E; [|done].
    destruct (decide (l ∈ ls)) as [Hin|]; [|done].
    exfalso. apply Hl, list_elem_of_filter. split; [|done]. rewrite E. eauto.
  - intros l Hl. split; [by apply Hdrop1|].
    rewrite Hst2. rewrite (Hdrop1 l Hl).
    destruct (f2 (path (st l))) as [q|]; [|done].
    by rewrite decide_False.
  - intros l Hl1 Hl.
    apply list_elem_of_filter in Hl1 as [[q Hq] Hin].
    assert (Hq2 : f2 q = None).
    { destruct (f2 q) as [q2|] eqn:E2; [|done].
      exfalso. apply Hl, list_elem_of_filter. split; [|done].
      unfold then_fun. rewrite Hq, E2. eauto. }
    assert (Hl1 : st1 l = mkTransformable q (payload (st l))).
    { rewrite Hst1, Hq. by rewrite decide_True. }
    exists q. split; [done|split; [done|split; [done|]]].
    rewrite Hst2, Hl1. simpl. by rewrite Hq2.
Qed.

End TwoPasses.

(** X7, witness: the first item is accepted and rewritten, the rule raises
    at the second one, and the store keeps the new path of the first. *)
Lemma apply_transform_no_rollback_witness :
  apply_transform a_or_raise ([0] ++ 1 :: [2]) (shelf, tt) =
    (Raises (re_error "missing ), unterminated subpattern"),
     (with_path shelf 0 (Path.parse "x"), tt)).
Proof.
  exact (apply_transform_no_rollback a_or_raise [0] 1 shelf tt [0]
           (with_path shelf 0 (Path.parse "x")) tt
           (re_error "missing ), unterminated subpattern") tt
           eq_refl eq_refl [2]).
Defined.

(** X8, witness: the batch under a glob rule; the accepted object is as it
    was. *)
Lemma apply_transform_filter_keeps_store_witness :
  with_path shelf 1 (Path.parse "b") 1 = shelf 1.
Proof.
  exact (apply_transform_filter_keeps_store (glob "b") [0; 1; 2] shelf tt [1]
           (with_path shelf 1 (Path.parse "b")) tt
           (predicate_is_filter _) eq_refl 1).
Defined.

(** X9, witness: under [optionally] nothing is dropped. *)
Lemma apply_transform_keeps_all_witness :
  exists st' w',
    apply_transform (optionally only_b) [0; 1; 2] (shelf, tt) =
      (Returns [0; 1; 2], (st', w')).
Proof.
  exact (apply_transform_keeps_all (optionally only_b) [0; 1; 2] shelf tt
           (optionally_always_accepts _ (move_never_raises _ _))).
Defined.

(** X10, witness: the path [b] goes to [x/b] in the first pass and is
    dropped by the second pass, which accepts the path [a] only; the object
    keeps the path [x/b], while the pipeline leaves it at [b]. *)
Lemma apply_transform_twice_witness :
  exists res1 st1 res st2 st',
    apply_transform only_b [0; 1; 2] (shelf, tt) = (Returns res1, (st1, tt)) /\
    apply_transform a_to_b res1 (st1, tt) = (Returns res, (st2, tt)) /\
    apply_transform (do [only_b; a_to_b]) [0; 1; 2] (shelf, tt) =
      (Returns res, (st', tt)) /\
    (forall l, l ∈ res -> st2 l = st' l) /\
    (forall l, l ∉ res -> st' l = shelf l) /\
    (forall l, l ∉ res1 -> st1 l = shelf l /\ st2 l = shelf l) /\
    (forall l, l ∈ res1 -> l ∉ res ->
       exists q, move_fun (PathStr "b") (PathStr "x/b") (path (shelf l)) = Some q /\
                 move_fun (PathStr "a") (PathStr "b") q = None /\
                 st1 l = mkTransformable q (payload (shelf l)) /\
                 st2 l = st1 l).
Proof.
  apply (apply_transform_twice
           (move_fun (PathStr "b") (PathStr "x/b"))
           (move_fun (PathStr "a") (PathStr "b"))
           only_b a_to_b [0; 1; 2] shelf tt).
  - apply move_is_move_fun.
  - apply move_is_move_fun.
  - apply (bool_decide_unpack _). vm_compute. exact I.
Defined.

(** The run of the witness, computed: the second pass drops the object and
    leaves it at [x/b]; the pipeline drops it and leaves it at [b]. *)
Example two_passes_differ :
  exists st1 st2 st',
    apply_transform only_b [0; 1; 2] (shelf, tt) = (Returns [1], (st1, tt)) /\
    apply_transform a_to_b [1] (st1, tt) = (Returns [], (st2, tt)) /\
    apply_transform (do [only_b; a_to_b]) [0; 1; 2] (shelf, tt) =
      (Returns [], (st', tt)) /\
    path (st2 1) = Path.parse "x/b" /\ path (st' 1) = Path.parse "b".
Proof. eexists _, _, _. repeat split; reflexivity. Qed.

(** ** The path rules, further *)

Section MoveRules.

Context {World : Type}.

Implicit Types (a b c source target : PathLike) (p q : PurePath) (w : World).

Lemma strict_ancestor_irrefl (s : PurePath) : ~ strict_ancestor s s.
Proof.
  intros (_ & rest & Hne & Heq). apply Hne.
  rewrite <- (app_nil_r (names s)) in Heq at 1.
  by apply app_inv_head in Heq.
Qed.

Lemma move_dir_accepts a b p rest w :
  root (to_path a) = root p -> names p = names (to_path a) ++ rest ->
  rest <> [] ->
  move_dir a b p w =
    (Returns (Some (mkPath (root (to_path b)) (names (to_path b) ++ rest))), w).
Proof.
  intros Hroot Hnames Hne. unfold move_dir.
  assert (E : Path.is_parent (to_path a) p = true).
  { apply is_parent_iff. split; [done|]. by exists rest. }
  rewrite E. unfold bind, pure, ret.
  by rewrite (relative_to_descendant _ p rest Hroot Hnames).
Qed.

Lemma move_dir_rejects a b p w :
  ~ strict_ancestor (to_path a) p -> move_dir a b p w = (Returns None, w).
Proof.
  intros Hn. unfold move_dir.
  destruct (Path.is_parent (to_path a) p) eqn:E; [|reflexivity].
  apply is_parent_iff in E. contradiction.
Qed.

Lemma move_dir_accepts_inv a b p w q w' :
  move_dir a b p w = (Returns (Some q), w') ->
  exists rest,
    rest <> [] /\ root (to_path a) = root p /\
    names p = names (to_path a) ++ rest /\
    q = mkPath (root (to_path b)) (names (to_path b) ++ rest) /\ w' = w.
Proof.
  intros H.
  destruct (Path.is_parent (to_path a) p) eqn:E.
  - apply is_parent_iff in E as (Hroot & rest & Hne & Hnames).
    rewrite (move_dir_accepts a b p rest w Hroot Hnames Hne) in H.
    inversion H. by exists rest.
  - rewrite move_dir_rejects in H; [discriminate|].
    intros Hs. apply is_parent_iff in Hs. congruence.
Qed.

(** X11. [move(source, target)] accepts the path equal to [source] and no
    other, and returns [target] as it is; it never raises.  It is disjoint
    from [move_dir] with the same arguments: no path is accepted by both. *)
Theorem move_exact source target p w :
  (p = to_path source ->
   move source target p w = (Returns (Some (to_path target)), w)) /\
  (p <> to_path source -> move source target p w = (Returns None, w)) /\
  (forall q w',
      move source target p w = (Returns (Some q), w') ->
      move_dir source target p w = (Returns None, w)) /\
  (forall q w',
      move_dir source target p w = (Returns (Some q), w') ->
      move source target p w = (Returns None, w)).
Proof.
  assert (Heq : p = to_path source ->
            move source target p w = (Returns (Some (to_path target)), w)).
  { intros ->. unfold move.
    by rewrite (proj2 (path_eqb_eq _ _) eq_refl). }
  assert (Hne : p <> to_path source ->
            move source target p w = (Returns None, w)).
  { intros Hn. unfold move.
    destruct (Path.eqb p (to_path source)) eqn:E; [|reflexivity].
    by apply path_eqb_eq in E. }
  split; [exact Heq|split; [exact Hne|split]].
  - intros q w' H. apply move_dir_rejects.
    destruct (Path.eqb p (to_path source)) eqn:E.
    + apply path_eqb_eq in E. subst p. apply strict_ancestor_irrefl.
    + rewrite Hne in H; [discriminate|].
      intros Hp. apply path_eqb_eq in Hp. congruence.
  - intros q w' H. apply Hne. intros ->.
    apply move_dir_accepts_inv in H as (rest & Hr & _ & Hnames & _).
    apply (strict_ancestor_irrefl (to_path source)).
    split; [done|]. by exists rest.
Qed.

(** X12. Round trip.  For a path below [a], moving from [a] to [b] and back
    from [b] to [a] returns the path; and moving a directory onto itself
    returns every path below it unchanged. *)
Theorem move_dir_round_trip a b p w :
  strict_ancestor (to_path a) p ->
  do [move_dir a b; move_dir b a] p w = (Returns (Some p), w) /\
  move_dir a a p w = (Returns (Some p), w).
Proof.
  intros (Hroot & rest & Hne & Hnames).
  assert (Hp : mkPath (root (to_path a)) (names (to_path a) ++ rest) = p).
  { destruct p as [rt ns]. simpl in *. by rewrite Hroot, Hnames. }
  split.
  - rewrite do_cons.
    rewrite (move_dir_accepts a b p rest w Hroot Hnames Hne).
    cbv beta iota. rewrite do_cons.
    rewrite (move_dir_accepts b a
               (mkPath (root (to_path b)) (names (to_path b) ++ rest))
               rest w eq_refl eq_refl Hne).
    cbv beta iota. by rewrite Hp.
  - rewrite (move_dir_accepts a a p rest w Hroot Hnames Hne). by rewrite Hp.
Qed.

(** X13. Two moves in a row are one move: moving from [a] to [b] and then
    from [b] to [c] is moving from [a] to [c], for every path. *)
Theorem move_dir_compose a b c p w :
  do [move_dir a b; move_dir b c] p w = move_dir a c p w.
Proof.
  rewrite do_cons.
  destruct (Path.is_parent (to_path a) p) eqn:E.
  - apply is_parent_iff in E as (Hroot & rest & Hne & Hnames).
    rewrite (move_dir_accepts a b p rest w Hroot Hnames Hne).
    cbv beta iota. rewrite do_cons.
    rewrite (move_dir_accepts b c
               (mkPath (root (to_path b)) (names (to_path b) ++ rest))
               rest w eq_refl eq_refl Hne).
    cbv beta iota.
    by rewrite (move_dir_accepts a c p rest w Hroot Hnames Hne).
  - assert (Hn : ~ strict_ancestor (to_path a) p).
    { intros Hs. apply is_parent_iff in Hs. congruence. }
    by rewrite !(move_dir_rejects a _ p w Hn).
Qed.

(** X14. No collision.  What [move_dir(a, b)] returns lies below [b], and
    two paths that it sends to the same path are the same path. *)
Theorem move_dir_injective a b p w q w1 :
  move_dir a b p w = (Returns (Some q), w1) ->
  strict_ancestor (to_path b) q /\
  (forall p' w' w1',
      move_dir a b p' w' = (Returns (Some q), w1') -> p' = p).
Proof.
  intros H.
  apply move_dir_accepts_inv in H as (rest & Hne & Hroot & Hnames & -> & _).
  split.
  - split; [done|]. by exists rest.
  - intros p' w' w1' H'.
    apply move_dir_accepts_inv in H' as (rest' & _ & Hroot' & Hnames' & Hq & _).
    inversion Hq as [Hrest]. apply app_inv_head in Hrest. subst rest'.
    destruct p as [rt ns], p' as [rt' ns']. simpl in *. congruence.
Qed.

End MoveRules.

Section RenameRules.

Context {World : Type} {E : Engine}.

Implicit Types (source target : string) (p q : PurePath) (w : World).

Lemma with_name_eq p n :
  Path.with_name p n =
  if String.eqb (Path.name p) "" then Raises (ValueError "has an empty name")
  else if name_ok n then Returns (replace_name p n)
  else Raises (ValueError "Invalid name").
Proof.
  unfold Path.with_name, name_ok, replace_name.
  destruct (String.eqb (Path.name p) ""); [reflexivity|].
  by destruct (_ || _).
Qed.

Lemma name_replace_name p n : Path.name (replace_name p n) = n.
Proof. unfold Path.name, replace_name. simpl. apply last_last. Qed.

Lemma parent_replace_name p n :
  removelast (names (replace_name p n)) = removelast (names p).
Proof. unfold replace_name. simpl. apply removelast_last. Qed.

Lemma replace_name_same p : Path.name p <> "" -> replace_name p (Path.name p) = p.
Proof.
  intros Hne. unfold replace_name, Path.name in *.
  destruct p as [rt ns]. simpl in *. f_equal.
  destruct ns as [|x ns]; [done|].
  symmetry. by apply app_removelast_last.
Qed.

Lemma replace_name_twice p n n' :
  replace_name (replace_name p n) n' = replace_name p n'.
Proof. unfold replace_name. simpl. by rewrite removelast_last. Qed.

Lemma name_ok_nonempty n : name_ok n = true -> n <> "".
Proof. intros H ->. discriminate. Qed.

Lemma rename_eq source target p w :
  rename source target p w =
  if String.eqb (Path.name p) source then
    match Path.with_name p target with
    | Returns q => (Returns (Some q), w)
    | Raises e => (Raises e, w)
    end
  else (Returns None, w).
Proof.
  unfold rename, bind, pure, ret.
  destruct (String.eqb (Path.name p) source); [|reflexivity].
  by destruct (Path.with_name p target).
Qed.

(** X15. [rename(source, target)] rejects a path whose name is not
    [source].  On a path named [source] it replaces the name by [target] and
    keeps the root and the parent names, provided [target] passes the test
    of [with_name]; otherwise it raises [ValueError], as it does when
    [source] is empty and the path has no name. *)
Theorem rename_spec source target p w :
  (Path.name p <> source -> rename source target p w = (Returns None, w)) /\
  (Path.name p = source -> source <> "" -> name_ok target = true ->
   rename source target p w = (Returns (Some (replace_name p target)), w)) /\
  (Path.name p = source -> source <> "" -> name_ok target = false ->
   rename source target p w = (Raises (ValueError "Invalid name"), w)) /\
  (Path.name p = source -> source = "" ->
   rename source target p w = (Raises (ValueError "has an empty name"), w)) /\
  (forall q w',
      rename source target p w = (Returns (Some q), w') ->
      root q = root p /\ removelast (names q) = removelast (names p) /\
      Path.name q = target).
Proof.
  rewrite rename_eq, with_name_eq.
  split; [|split; [|split; [|split]]].
  - intros Hne. apply String.eqb_neq in Hne. by rewrite Hne.
  - intros <- Hne Hok. rewrite String.eqb_refl, Hok.
    apply String.eqb_neq in Hne. by rewrite Hne.
  - intros <- Hne Hok. rewrite String.eqb_refl, Hok.
    apply String.eqb_neq in Hne. by rewrite Hne.
  - intros <- He. rewrite String.eqb_refl.
    apply String.eqb_eq in He. by rewrite He.
  - intros q w' H.
    destruct (String.eqb (Path.name p) source); [|discriminate].
    destruct (String.eqb (Path.name p) ""); [discriminate|].
    destruct (name_ok target); [|discriminate].
    inversion H; subst q.
    split; [done|split; [apply parent_replace_name|apply name_replace_name]].
Qed.

(** X16. Round trip.  Renaming from [s] to [t] and back from [t] to [s]
    returns the path, for every path named [s], when both names pass the
    test of [with_name]. *)
Theorem rename_round_trip (s t : string) p w :
  Path.name p = s -> name_ok s = true -> name_ok t = true ->
  do [rename s t; rename t s] p w = (Returns (Some p), w).
Proof.
  intros Hname Hs Ht.
  assert (Hs0 := name_ok_nonempty _ Hs). assert (Ht0 := name_ok_nonempty _ Ht).
  rewrite do_cons, rename_eq, with_name_eq.
  rewrite Hname, String.eqb_refl, Ht.
  rewrite (proj2 (String.eqb_neq _ _) Hs0).
  rewrite do_cons, rename_eq, with_name_eq.
  rewrite name_replace_name, String.eqb_refl, Hs.
  rewrite (proj2 (String.eqb_neq _ _) Ht0).
  rewrite replace_name_twice, <- Hname, replace_name_same; [done|].
  by rewrite Hname.
Qed.

(** X17. [re_rename], for every engine in which a full match spans the
    subject and numbered fields are replaced by their arguments.  When
    [re_rename(regex, target)] accepts a path, the regex matched the whole
    name of the path and nothing else of it, the new name is the formatted
    template, and the root and the parent names are kept.  With a template of
    text and fields [{k}] the new name is the template with every [{k}]
    replaced by group [k].  When the name does not match the rule rejects;
    when it matches and the path has no name, or the formatted template does
    not pass the test of [with_name], the application raises
    [ValueError]. *)
Theorem re_rename_spec (regex : Regex) target p w :
  lawful E ->
  (forall q w',
      re_rename regex target p w = (Returns (Some q), w') ->
      w' = w /\
      exists pat m s,
        to_pattern regex = Returns pat /\
        pattern_fullmatch pat (Path.name p) = Returns (Some m) /\
        match_group0 m = Path.name p /\
        str_format target (format_groups m) = Returns s /\
        q = replace_name p s /\
        root q = root p /\ removelast (names q) = removelast (names p) /\
        Path.name q = s) /\
  (forall pat m items,
      to_pattern regex = Returns pat ->
      pattern_fullmatch pat (Path.name p) = Returns (Some m) ->
      Forall (piece_ok (S (length (match_groups m)))) items ->
      target = show items ->
      Path.name p <> "" ->
      name_ok (substitute (Some (Path.name p) :: match_groups m) items) = true ->
      re_rename regex target p w =
        (Returns (Some (replace_name p
           (substitute (Some (Path.name p) :: match_groups m) items))), w)) /\
  (forall pat,
      to_pattern regex = Returns pat ->
      pattern_fullmatch pat (Path.name p) = Returns None ->
      re_rename regex target p w = (Returns None, w)) /\
  (forall pat m s,
      to_pattern regex = Returns pat ->
      pattern_fullmatch pat (Path.name p) = Returns (Some m) ->
      str_format target (format_groups m) = Returns s ->
      (Path.name p = "" ->
       re_rename regex target p w = (Raises (ValueError "has an empty name"), w)) /\
      (Path.name p <> "" -> name_ok s = false ->
       re_rename regex target p w = (Raises (ValueError "Invalid name"), w))).
Proof.
  intros [Hg0 Hfmt].
  split; [|split; [|split]].
  - intros q w' H. rewrite re_rename_unfold in H.
    destruct (to_pattern regex) as [pat|e] eqn:Ep; [|discriminate].
    destruct (pattern_fullmatch pat (Path.name p)) as [[m|]|e] eqn:Em;
      [|discriminate..].
    destruct (str_format target (format_groups m)) as [s|e] eqn:Ef;
      [|discriminate].
    rewrite with_name_eq in H.
    destruct (String.eqb (Path.name p) ""); [discriminate|].
    destruct (name_ok s); [|discriminate].
    inversion H; subst q w'. split; [done|].
    exists pat, m, s.
    repeat split; try done;
      [by apply (Hg0 pat)|apply parent_replace_name|apply name_replace_name].
  - intros pat m items Hp Hm Hok -> Hne Hname.
    assert (Hm0 := Hg0 _ _ _ Hm).
    rewrite re_rename_unfold, Hp, Hm.
    rewrite Hfmt by (by unfold format_groups).
    unfold format_groups. rewrite Hm0, with_name_eq, Hname.
    apply String.eqb_neq in Hne. by rewrite Hne.
  - intros pat Hp Hm. by rewrite re_rename_unfold, Hp, Hm.
  - intros pat m s Hp Hm Hs. rewrite re_rename_unfold, Hp, Hm, Hs, with_name_eq.
    split.
    + intros ->. reflexivity.
    + intros Hne Hbad. apply String.eqb_neq in Hne. by rewrite Hne, Hbad.
Qed.

End RenameRules.

(** X17, witness: with the models of [re] and [str.format], the number and
    the rest of a name change places. *)
Lemma re_rename_spec_witness :
  lawful fragment_engine /\
  re_rename (RegexStr "(\d+)_(.*)") "{2}_{1}" (Path.parse "dir/42_report.pdf") tt =
    (Returns (Some (replace_name (Path.parse "dir/42_report.pdf")
       (substitute [Some "42_report.pdf"; Some "42"; Some "report.pdf"]
          [Field ["2"%char]; Text "_"; Field ["1"%char]]))), tt).
Proof.
  split; [exact fragment_lawful|].
  destruct (re_rename_spec (RegexStr "(\d+)_(.*)") "{2}_{1}"
              (Path.parse "dir/42_report.pdf") tt fragment_lawful)
    as (_ & H & _).
  apply (H _ _ [Field ["2"%char]; Text "_"; Field ["1"%char]] eq_refl eq_refl);
    [|reflexivity|discriminate|reflexivity].
  repeat constructor; try discriminate; vm_compute; try reflexivity;
    discriminate.
Defined.

(** X12, witness: a file below [raw], moved to [sorted] and back. *)
Lemma move_dir_round_trip_witness :
  do [move_dir (PathStr "raw") (PathStr "sorted");
      move_dir (PathStr "sorted") (PathStr "raw")]
     (Path.parse "raw/2023/a.txt") tt =
    (Returns (Some (Path.parse "raw/2023/a.txt")), tt) /\
  move_dir (PathStr "raw") (PathStr "raw") (Path.parse "raw/2023/a.txt") tt =
    (Returns (Some (Path.parse "raw/2023/a.txt")), tt).
Proof.
  apply (move_dir_round_trip (PathStr "raw") (PathStr "sorted")
           (Path.parse "raw/2023/a.txt") tt).
  split; [reflexivity|].
  exists ["2023"; "a.txt"]. split; [discriminate|reflexivity].
Defined.

(** X14, witness: the image of [raw/2023/a.txt] lies below [sorted] and has
    no other preimage. *)
Lemma move_dir_injective_witness :
  strict_ancestor (to_path (PathStr "sorted")) (Path.parse "sorted/2023/a.txt") /\
  (forall p' (w' w1' : unit),
      move_dir (PathStr "raw") (PathStr "sorted") p' w' =
        (Returns (Some (Path.parse "sorted/2023/a.txt")), w1') ->
      p' = Path.parse "raw/2023/a.txt").
Proof.
  exact (move_dir_injective (PathStr "raw") (PathStr "sorted")
           (Path.parse "raw/2023/a.txt") tt
           (Path.parse "sorted/2023/a.txt") tt eq_refl).
Defined.

(** X16, witness: [dir/a.txt] renamed to [b.txt] and back. *)
Lemma rename_round_trip_witness :
  do [rename "a.txt" "b.txt"; rename "b.txt" "a.txt"]
     (Path.parse "dir/a.txt") tt =
    (Returns (Some (Path.parse "dir/a.txt")), tt).
Proof.
  exact (rename_round_trip "a.txt" "b.txt" (Path.parse "dir/a.txt") tt
           eq_refl eq_refl eq_refl).
Defined.

(** ** Paths and strings *)

Section PathStrings.

Lemma chars_of_chars l : Str.chars (Str.of_chars l) = l.
Proof. apply list_ascii_of_string_of_list_ascii. Qed.

Lemma of_chars_chars s : Str.of_chars (Str.chars s) = s.
Proof. apply string_of_list_ascii_of_string. Qed.

Lemma chars_app a b : Str.chars (a +:+ b) = Str.chars a ++ Str.chars b.
Proof.
  induction a as [|c a IH]; [reflexivity|].
  change (c :: Str.chars (a +:+ b) = c :: (Str.chars a ++ Str.chars b)).
  by f_equal.
Qed.

Lemma split_chars_no_sep sep l :
  existsb (Ascii.eqb sep) l = false -> Str.split_chars sep l = [l].
Proof.
  induction l as [|c l IH]; intros H; [reflexivity|].
  simpl in *. apply orb_false_iff in H as [Hc Hl].
  rewrite Ascii.eqb_sym, Hc, (IH Hl). reflexivity.
Qed.

Lemma split_chars_sep sep l1 l2 :
  existsb (Ascii.eqb sep) l1 = false ->
  Str.split_chars sep (l1 ++ sep :: l2) = l1 :: Str.split_chars sep l2.
Proof.
  induction l1 as [|c l1 IH]; intros H.
  - simpl. by rewrite Ascii.eqb_refl.
  - simpl in *. apply orb_false_iff in H as [Hc Hl].
    rewrite Ascii.eqb_sym, Hc, (IH Hl). reflexivity.
Qed.

Lemma split_chars_pieces sep l :
  Forall (fun piece => existsb (Ascii.eqb sep) piece = false)
         (Str.split_chars sep l).
Proof.
  induction l as [|c l IH]; simpl.
  - by repeat constructor.
  - destruct (Ascii.eqb c sep) eqn:E.
    + by constructor.
    + destruct (Str.split_chars sep l) as [|piece ps].
      * constructor; [|constructor]. simpl. by rewrite Ascii.eqb_sym, E.
      * apply Forall_cons in IH as [Hp Hps]. constructor; [|done].
        simpl. by rewrite Ascii.eqb_sym, E.
Qed.

Lemma is_plain_inv n :
  is_plain n = true ->
  n <> "" /\ n <> "." /\ existsb (Ascii.eqb Str.slash) (Str.chars n) = false.
Proof.
  unfold is_plain, Path.is_name, has_slash. intros H.
  apply andb_true_iff in H as [H1 H3]. apply andb_true_iff in H1 as [H1 H2].
  apply negb_true_iff in H1, H2, H3.
  apply String.eqb_neq in H1, H2. done.
Qed.

Lemma splitroot_plain_head c s :
  Ascii.eqb c Str.slash = false ->
  Path.splitroot (String c s) = ("", String c s).
Proof. intros H. unfold Path.splitroot. by rewrite H. Qed.

Lemma plain_head n :
  is_plain n = true ->
  exists c s, n = String c s /\ Ascii.eqb c Str.slash = false.
Proof.
  intros H. apply is_plain_inv in H as (Hne & _ & Hs).
  destruct n as [|c s]; [done|]. exists c, s. split; [done|].
  simpl in Hs. apply orb_false_iff in Hs as [Hc _].
  by rewrite Ascii.eqb_sym.
Qed.

(** A plain name parses to the relative path of that one name. *)
Lemma parse_plain n : is_plain n = true -> Path.parse n = mkPath "" [n].
Proof.
  intros H. destruct (plain_head n H) as (c & s & -> & Hc).
  unfold Path.parse. rewrite (splitroot_plain_head c s Hc).
  destruct (is_plain_inv _ H) as (_ & _ & Hs).
  unfold Str.split. rewrite (split_chars_no_sep _ _ Hs). simpl map.
  rewrite of_chars_chars.
  unfold is_plain in H. apply andb_true_iff in H as [Hn _].
  rewrite filter_cons, decide_True by done. reflexivity.
Qed.

Lemma plain_name_ok n : is_plain n = true -> name_ok n = true.
Proof.
  intros H. unfold name_ok. rewrite (parse_plain n H).
  destruct (is_plain_inv _ H) as (Hne & _ & Hs).
  apply String.eqb_neq in Hne. rewrite Hne. cbn [orb].
  rewrite bool_decide_false; [reflexivity|].
  unfold Str.last_char. intros Hl.
  apply last_Some in Hl as [l' Hl']. rewrite Hl' in Hs.
  rewrite existsb_app in Hs. apply orb_false_iff in Hs as [_ Hs].
  simpl in Hs. rewrite ?Ascii.eqb_refl in Hs. discriminate.
Qed.

Lemma splitroot_root s :
  let rt := fst (Path.splitroot s) in rt = "" \/ rt = "/" \/ rt = "//".
Proof.
  unfold Path.splitroot. destruct s as [|c s]; [by left|].
  destruct (Ascii.eqb c Str.slash); [|by left].
  destruct (_ =? 2); simpl; auto.
Qed.

(** Whatever the string, [PurePath] builds a well-formed path. *)
Lemma parse_wf s : wf_path (Path.parse s).
Proof.
  unfold Path.parse. pose proof (splitroot_root s) as Hroot.
  destruct (Path.splitroot s) as [rt rel]. simpl in Hroot.
  split; [exact Hroot|]. simpl.
  apply Forall_forall. intros n Hn.
  apply list_elem_of_filter in Hn as [Hname Hin].
  unfold is_plain. rewrite Hname. simpl.
  apply list_elem_of_In, in_map_iff in Hin as (piece & <- & Hpiece).
  unfold has_slash. rewrite chars_of_chars.
  pose proof (split_chars_pieces Str.slash (Str.chars rel)) as Hall.
  rewrite Forall_forall in Hall.
  rewrite (Hall piece); [reflexivity|]. by apply list_elem_of_In.
Qed.

Lemma lstrip_plain_head c s :
  Ascii.eqb c Str.slash = false ->
  Str.lstrip Str.slash (String c s) = String c s.
Proof. intros H. simpl. by rewrite H. Qed.

(** The names joined by slashes start with a character that is not a slash
    and split back into the names. *)
Lemma join_plain ns :
  Forall (fun n => is_plain n = true) ns -> ns <> [] ->
  (exists c s, Str.join "/" ns = String c s /\ Ascii.eqb c Str.slash = false) /\
  Str.split_chars Str.slash (Str.chars (Str.join "/" ns)) = map Str.chars ns.
Proof.
  induction ns as [|n ns IH]; intros Hall Hne; [done|].
  apply Forall_cons in Hall as [Hn Hall].
  destruct (plain_head n Hn) as (c & s & En & Hc).
  destruct (is_plain_inv n Hn) as (_ & _ & Hs).
  destruct ns as [|n2 ns].
  - simpl. split; [by exists c, s|]. by apply split_chars_no_sep.
  - destruct (IH Hall) as [_ IHsplit]; [done|].
    change (Str.join "/" (n :: n2 :: ns))
      with (n +:+ "/" +:+ Str.join "/" (n2 :: ns)).
    split.
    + rewrite En. by exists c, (s +:+ "/" +:+ Str.join "/" (n2 :: ns)).
    + rewrite chars_app.
      change (Str.chars ("/" +:+ Str.join "/" (n2 :: ns)))
        with (Str.slash :: Str.chars (Str.join "/" (n2 :: ns))).
      rewrite (split_chars_sep _ _ _ Hs), IHsplit. reflexivity.
Qed.

Lemma filter_names_plain ns :
  Forall (fun n => is_plain n = true) ns ->
  filter (fun x => Path.is_name x = true) (map Str.of_chars (map Str.chars ns)) = ns.
Proof.
  induction ns as [|n ns IH]; intros Hall; [reflexivity|].
  apply Forall_cons in Hall as [Hn Hall]. simpl map.
  rewrite of_chars_chars, filter_cons, decide_True.
  - by rewrite (IH Hall).
  - unfold is_plain in Hn. by apply andb_true_iff in Hn as [Hn _].
Qed.

(** Round trip: a well-formed path is the path that its string form is
    parsed to. *)
Lemma parse_str_wf p : wf_path p -> Path.parse (Path.str p) = p.
Proof.
  destruct p as [rt ns]. intros [Hroot Hall]. simpl in Hroot, Hall.
  unfold Path.str. simpl root. simpl names.
  destruct ns as [|n ns].
  - destruct Hroot as [-> | [-> | ->]]; reflexivity.
  - destruct (join_plain (n :: ns) Hall) as [(c & s & Ej & Hc) Hsplit]; [done|].
    assert (Hnames :
      filter (fun x => Path.is_name x = true)
        (Str.split Str.slash (Str.join "/" (n :: ns))) = n :: ns).
    { unfold Str.split. rewrite Hsplit. by apply filter_names_plain. }
    destruct Hroot as [-> | [-> | ->]].
    + change ("" +:+ Str.join "/" (n :: ns)) with (Str.join "/" (n :: ns)).
      rewrite Ej. cbn [String.eqb]. rewrite <- Ej.
      unfold Path.parse. rewrite Ej, (splitroot_plain_head c s Hc), <- Ej.
      by rewrite Hnames.
    + change ("/" +:+ Str.join "/" (n :: ns))
        with (String "/" (Str.join "/" (n :: ns))).
      cbn [String.eqb]. unfold Path.parse, Path.splitroot.
      change (Ascii.eqb "/" Str.slash) with true. cbv iota.
      change (Str.lstrip Str.slash (String "/" (Str.join "/" (n :: ns))))
        with (Str.lstrip Str.slash (Str.join "/" (n :: ns))).
      rewrite Ej, (lstrip_plain_head c s Hc), <- Ej.
      replace (String.length (String "/" (Str.join "/" (n :: ns))) -
               String.length (Str.join "/" (n :: ns))) with 1
        by (simpl; lia).
      cbv iota beta. change (1 =? 2) with false. cbv iota.
      by rewrite Hnames.
    + change ("//" +:+ Str.join "/" (n :: ns))
        with (String "/" (String "/" (Str.join "/" (n :: ns)))).
      cbn [String.eqb]. unfold Path.parse, Path.splitroot.
      change (Ascii.eqb "/" Str.slash) with true. cbv iota.
      change (Str.lstrip Str.slash
                (String "/" (String "/" (Str.join "/" (n :: ns)))))
        with (Str.lstrip Str.slash (Str.join "/" (n :: ns))).
      rewrite Ej, (lstrip_plain_head c s Hc), <- Ej.
      replace (String.length (String "/" (String "/" (Str.join "/" (n :: ns)))) -
               String.length (Str.join "/" (n :: ns))) with 2
        by (simpl; lia).
      change (2 =? 2) with true. cbv iota.
      by rewrite Hnames.
Qed.

(** X18. Paths and their string forms.  Whatever the string, the path built
    from it is well-formed; a well-formed path is recovered from its string
    form; and building a path from the string form of a path built from a
    string changes nothing. *)
Theorem path_string_round_trip (s : string) (p : PurePath) :
  wf_path (Path.parse s) /\
  (wf_path p -> Path.parse (Path.str p) = p) /\
  Path.parse (Path.str (Path.parse s)) = Path.parse s.
Proof.
  split; [apply parse_wf|split; [apply parse_str_wf|]].
  apply parse_str_wf, parse_wf.
Qed.

End PathStrings.

Section WellFormed.

Context {World : Type} {E : Engine}.

Implicit Types (r : @Transform World) (p q : PurePath) (w : World).

Lemma Forall_removelast {A} (P : A -> Prop) (l : list A) :
  Forall P l -> Forall P (removelast l).
Proof.
  induction l as [|x l IH]; intros H; [done|].
  apply Forall_cons in H as [Hx Hl]. simpl.
  destruct l; [constructor|]. constructor; [done|by apply IH].
Qed.

Lemma re_move_returns_wf (regex : Regex) target p w q w' :
  re_move regex target p w = (Returns (Some q), w') -> wf_path q.
Proof.
  rewrite re_move_unfold. intros H.
  destruct (to_pattern regex) as [pat|e]; [|discriminate].
  destruct (pattern_fullmatch pat (Path.str p)) as [[m|]|e]; [|discriminate..].
  destruct (str_format target (format_groups m)) as [s|e]; [|discriminate].
  inversion H. apply parse_wf.
Qed.

(** X19. [re_move] returns well-formed paths only, whatever the engine and
    whatever the template produces.  With the template [{0}], and an engine
    in which a full match spans the subject and numbered fields are replaced
    by their arguments, it is a filter on well-formed paths: a path whose
    string form the regex matches in full is returned as it is. *)
Theorem re_move_normalises (regex : Regex) target p w :
  lawful E ->
  (forall q w', re_move regex target p w = (Returns (Some q), w') -> wf_path q) /\
  (wf_path p ->
   forall pat m,
     to_pattern regex = Returns pat ->
     pattern_fullmatch pat (Path.str p) = Returns (Some m) ->
     re_move regex "{0}" p w = (Returns (Some p), w)).
Proof.
  intros [Hg0 Hfmt].
  split.
  - intros q w'. apply re_move_returns_wf.
  - intros Hwf pat m Hp Hm.
    assert (Hm0 := Hg0 _ _ _ Hm).
    rewrite re_move_unfold, Hp, Hm.
    change "{0}" with (show [Field ["0"%char]]).
    rewrite Hfmt.
    + unfold format_groups. rewrite Hm0. simpl substitute.
      rewrite append_empty_r. by rewrite parse_str_wf.
    + constructor; [|constructor]. unfold format_groups. cbn [piece_ok length].
      split; [done|split; [reflexivity|]].
      change (Format.int_of ["0"%char]) with 0%N.
      split; [lia|done].
Qed.

Lemma move_dir_preserves_wf (a b : PathLike) :
  wf_path (to_path b) -> preserves_wf (@move_dir World a b).
Proof.
  intros [Hrb Hnb] p w q w' [_ Hnp] H.
  apply move_dir_accepts_inv in H as (rest & _ & _ & Hnames & -> & _).
  split; [exact Hrb|]. simpl. apply Forall_app. split; [done|].
  rewrite Hnames in Hnp. by apply Forall_app in Hnp as [_ ?].
Qed.

Lemma rename_preserves_wf (source target : string) :
  is_plain target = true -> preserves_wf (@rename World source target).
Proof.
  intros Ht p w q w' [Hrp Hnp] H. rewrite rename_eq, with_name_eq in H.
  destruct (String.eqb (Path.name p) source); [|discriminate].
  destruct (String.eqb (Path.name p) ""); [discriminate|].
  destruct (name_ok target); [|discriminate].
  inversion H; subst q. split; [exact Hrp|]. simpl.
  apply Forall_app. split; [by apply Forall_removelast|]. by constructor.
Qed.

(** X20. The rules and well-formed paths.  A path built from a string is
    well-formed.  [keep], [predicate] and [glob] are filters: the path they
    return, when they accept, is the path they are given.  [move] and [move_dir] with a well-formed
    target, [rename] with a plain target name, and [re_move] with any
    engine, regex and template return a well-formed path whenever they
    accept a well-formed path. *)
Theorem rules_preserve_wf :
  (forall s, wf_path (to_path (PathStr s))) /\
  is_filter (@keep World) /\
  (forall pred, is_filter (@predicate World pred)) /\
  (forall pattern, is_filter (@glob World pattern)) /\
  (forall source target,
      wf_path (to_path target) -> preserves_wf (@move World source target)) /\
  (forall a b, wf_path (to_path b) -> preserves_wf (@move_dir World a b)) /\
  (forall source target,
      is_plain target = true -> preserves_wf (@rename World source target)) /\
  (forall regex target, preserves_wf (re_move (World:=World) regex target)).
Proof.
  split; [intros s; apply parse_wf|].
  split; [intros p w q w' H; inversion H; by subst|].
  split; [apply predicate_is_filter|].
  split; [intros pattern; apply predicate_is_filter|].
  split.
  { intros source target Ht p w q w' Hwf H.
    rewrite move_is_move_fun in H. unfold move_fun in H.
    destruct (Path.eqb p (to_path source)); [|discriminate].
    inversion H. by subst. }
  split; [apply move_dir_preserves_wf|].
  split; [apply rename_preserves_wf|].
  intros regex target p w q w' _ H. eapply re_move_returns_wf; eauto.
Qed.

Lemma do_preserves_wf (rules : list (@Transform World)) :
  Forall preserves_wf rules -> preserves_wf (do rules).
Proof.
  intros Hall p w q w' Hwf H. apply do_accepts_iff in H.
  induction H as [|p r rules w p1 w1 q w' Hr _ IH]; [done|].
  apply Forall_cons in Hall as [Hr' Hall].
  apply IH; [done|]. eapply Hr'; eauto.
Qed.

Lemma attempt_preserves_wf (rules : list (@Transform World)) :
  Forall preserves_wf rules -> preserves_wf (attempt rules).
Proof.
  intros Hall p w q w' Hwf H.
  apply attempt_accepts_inv in H as (pre & r & post & w1 & -> & _ & Hr).
  apply Forall_app in Hall as [_ Hall].
  apply Forall_cons in Hall as [Hr' _]. eapply Hr'; eauto.
Qed.

(** X21. The combinators keep the invariant: when every rule of a pipeline
    or of an alternation returns well-formed paths on well-formed paths, so
    does the combined rule; and so does [optionally] of such a rule. *)
Theorem combinators_preserve_wf (rules : list (@Transform World)) r :
  Forall preserves_wf rules ->
  preserves_wf (do rules) /\ preserves_wf (attempt rules) /\
  (preserves_wf r -> preserves_wf (optionally r)).
Proof.
  intros Hall.
  split; [by apply do_preserves_wf|split; [by apply attempt_preserves_wf|]].
  intros Hr. apply attempt_preserves_wf.
  constructor; [done|]. constructor; [|constructor].
  intros p w q w' Hwf H. inversion H; by subst.
Qed.

End WellFormed.

Section WellFormedStore.

Context {World Payload : Type}.

Implicit Types (t : @Transform World) (st : @Store Payload) (w : World)
  (l : loc) (ls : list loc).

(** X22. [apply_transform] keeps the store well-formed: when the rule
    returns well-formed paths on well-formed paths and every object has a
    well-formed path, every object has a well-formed path afterwards, whether
    the call returns or raises. *)
Theorem apply_transform_preserves_wf t ls : forall st w o st' w',
  preserves_wf t ->
  (forall l, wf_path (path (st l))) ->
  apply_transform t ls (st, w) = (o, (st', w')) ->
  forall l, wf_path (path (st' l)).
Proof.
  induction ls as [|l0 ls IH]; intros st w o st' w' Ht Hst H.
  - inversion H; by subst.
  - rewrite apply_transform_cons in H.
    destruct (t (path (st l0)) w) as [[[q|]|e] w1] eqn:E.
    + assert (Hq : wf_path q) by (eapply Ht; eauto).
      assert (Hst1 : forall l, wf_path (path (with_path st l0 q l))).
      { intros l. destruct (decide (l0 = l)) as [->|Hne].
        - by rewrite with_path_same.
        - by rewrite with_path_other. }
      destruct (apply_transform t ls (with_path st l0 q, w1))
        as [[res|e] [st2 w2]] eqn:E2; inversion H; subst;
        eapply IH; eauto.
    + eapply IH; eauto.
    + inversion H; by subst.
Qed.

End WellFormedStore.

Section GlobPlain.

Context {World : Type}.

(** X23. A glob pattern that is a plain name pattern (no slash) looks at the
    last part of the path only, at any depth: the rule accepts exactly the
    paths that have a last part matching the pattern, and it never raises. *)
Theorem glob_plain_pattern (pattern : string) (p : PurePath) (w : World) :
  is_plain pattern = true ->
  glob pattern p w =
    (Returns (if match last (Path.parts p) with
                 | Some n => Fnmatch.fnmatchcase n pattern
                 | None => false
                 end
              then Some p else None), w).
Proof.
  intros Hplain. rewrite glob_unfold. unfold Path.match_.
  rewrite (parse_plain _ Hplain).
  change (Path.parts (mkPath "" [pattern])) with [pattern].
  cbn [root String.eqb negb andb length rev app].
  destruct (Path.parts p) as [|x l _] using rev_ind.
  - reflexivity.
  - rewrite last_snoc, rev_unit, length_app. cbn [length].
    replace (length l + 1 <? 1) with false
      by (symmetry; apply Nat.ltb_ge; lia).
    cbn [zip zip_with]. rewrite zip_nil_r. cbn [forallb].
    rewrite andb_true_r.
    by destruct (Fnmatch.fnmatchcase x pattern).
Qed.

End GlobPlain.

(** X19, witness: with the models of [re] and [str.format], a regex that
    matches everything and the template [{0}] return the path. *)
Lemma re_move_normalises_witness :
  lawful fragment_engine /\
  re_move (RegexStr ".*") "{0}" (Path.parse "a/b.txt") tt =
    (Returns (Some (Path.parse "a/b.txt")), tt).
Proof.
  split; [exact fragment_lawful|].
  destruct (re_move_normalises (RegexStr ".*") "{0}" (Path.parse "a/b.txt") tt
              fragment_lawful) as [_ H].
  exact (H (parse_wf _) _ _ eq_refl eq_refl).
Defined.

(** X21, witness: a pipeline and an alternation of [move_dir] and [rename]. *)
Lemma combinators_preserve_wf_witness :
  preserves_wf (World:=unit)
    (do [move_dir (PathStr "raw") (PathStr "sorted"); rename "a.txt" "b.txt"]) /\
  preserves_wf (World:=unit)
    (attempt [move_dir (PathStr "raw") (PathStr "sorted");
              rename "a.txt" "b.txt"]) /\
  (preserves_wf only_b -> preserves_wf (optionally only_b)).
Proof.
  apply combinators_preserve_wf.
  constructor; [apply move_dir_preserves_wf, parse_wf|].
  constructor; [by apply rename_preserves_wf|constructor].
Defined.

Lemma only_b_preserves_wf : preserves_wf only_b.
Proof.
  intros p w q w' _ H. unfold only_b in H.
  rewrite move_is_move_fun in H. unfold move_fun in H.
  destruct (Path.eqb p _); [|discriminate].
  inversion H. apply parse_wf.
Qed.

(** X22, witness: the sample store under the rule that accepts [b]. *)
Lemma apply_transform_preserves_wf_witness :
  wf_path (path (with_path shelf 1 (Path.parse "x/b") 1)).
Proof.
  exact (apply_transform_preserves_wf only_b [0; 1; 2] shelf tt (Returns [1])
           (with_path shelf 1 (Path.parse "x/b")) tt
           only_b_preserves_wf (fun l => parse_wf _) eq_refl 1).
Defined.

(** X23, witness: the pattern [*.py] accepts a file two levels down. *)
Lemma glob_plain_pattern_witness :
  glob "*.py" (Path.parse "src/pkg/a.py") tt =
    (Returns (Some (Path.parse "src/pkg/a.py")), tt).
Proof.
  exact (glob_plain_pattern "*.py" (Path.parse "src/pkg/a.py") tt eq_refl).
Defined.

(** A target that passes the test of [with_name] and is not a plain name:
    the path that [rename] returns has a slash inside a name. *)
Example rename_odd_target :
  rename "x" "a/." (Path.parse "d/x") tt =
    (Returns (Some (mkPath "" ["d"; "a/."])), tt) /\
  ~ wf_path (mkPath "" ["d"; "a/."]).
Proof.
  split; [reflexivity|].
  intros [_ H]. simpl in H.
  apply Forall_cons in H as [_ H]. apply Forall_cons in H as [H _].
  discriminate.
Qed.
